(** * Shutter-Thoughts: the page script [script.js] as a shallow embedding

    The script is browser glue code: every class reacts to events and
    mutates the document, the browser storage and a handful of instance
    fields.  The embedding makes that state explicit (records passed from
    handler to handler), takes what the environment decides (which file the
    picker returns, whether the file read succeeds, which element an event
    targets, which timer fires) as an argument, and keeps the source's names.

    JavaScript values are modelled as follows.
    - Strings are [string]; a character is a code unit below 256.
    - Numbers that hold like counts are integers; they are modelled as [Z].
      A JavaScript number is a binary64 float, on which integer arithmetic is
      exact up to magnitude [2^53].  Statements about counting carry that
      range as a hypothesis ([exactInt]).
    - The numbers of the image optimizer are not integers: a binary64 value
      is modelled as the rational it denotes and every operation rounds its
      exact result to binary64 ([Binary64.round]).
    - [undefined] (a missing data attribute, a missing storage key) is
      [None]. *)

From Stdlib Require Import ZArith QArith Qminmax Qround Qpower Lqa Lia.
From Stdlib Require Import Strings.String Strings.Ascii.
From Stdlib Require Floats.
From stdpp Require Import base option list strings.

Local Open Scope Z_scope.

(** ** JavaScript primitives used by the script *)

Module JS.

(** Code unit of a character. *)
Definition code (c : ascii) : Z := Z.of_N (N_of_ascii c).

(** [StrWhiteSpaceChar] restricted to code units below 256: TAB, LF, VT, FF,
    CR, SP and NBSP. *)
Definition isWhiteSpace (c : ascii) : bool :=
  let n := code c in
  ((9 <=? n) && (n <=? 13)) || (n =? 32) || (n =? 160).

Fixpoint trimStart (s : string) : string :=
  match s with
  | String c r => if isWhiteSpace c then trimStart r else s
  | EmptyString => EmptyString
  end.


(** Value of a character as a digit of radix [R], if it is one. *)
Definition digitValue (R : Z) (c : ascii) : option Z :=
  let n := code c in
  let d := if (48 <=? n) && (n <=? 57) then Some (n - 48)
           else if (97 <=? n) && (n <=? 122) then Some (n - 87)
           else if (65 <=? n) && (n <=? 90) then Some (n - 55)
           else None in
  match d with
  | Some v => if v <? R then Some v else None
  | None => None
  end.

(** The longest prefix of radix-[R] digits, as digit values. *)
Fixpoint digitPrefix (R : Z) (s : string) : list Z :=
  match s with
  | String c r =>
      match digitValue R c with
      | Some d => d :: digitPrefix R r
      | None => []
      end
  | EmptyString => []
  end.

Definition digitsValue (R : Z) (ds : list Z) : Z :=
  fold_left (fun a d => a * R + d) ds 0.

Definition isX (c : ascii) : bool := (code c =? 120) || (code c =? 88).

(** [parseInt(string)] with no radix argument: leading white space is
    skipped, a sign is read, a [0x]/[0X] prefix selects radix 16, and the
    longest digit prefix is the value.  No digit at all is [NaN], here
    [None]. *)
Definition signAndRest (s0 : string) : Z * string :=
  match s0 with
  | String "-" r => (-1, r)
  | String "+" r => (1, r)
  | _ => (1, s0)
  end.

Definition radixAndRest (s1 : string) : Z * string :=
  match s1 with
  | String "0" (String x r) => if isX x then (16, r) else (10, s1)
  | _ => (10, s1)
  end.

Definition parseInt (input : string) : option Z :=
  let s0 := trimStart input in
  let '(sign, s1) := signAndRest s0 in
  let '(R, s2) := radixAndRest s1 in
  match digitPrefix R s2 with
  | [] => None
  | ds => Some (sign * digitsValue R ds)
  end.

(** [x || 0] on the result of [parseInt]: [NaN] and [0] are falsy. *)
Definition orZero (x : option Z) : Z :=
  match x with
  | Some n => if n =? 0 then 0 else n
  | None => 0
  end.

Definition digitChar (d : Z) : ascii := ascii_of_N (Z.to_N (48 + d)).

(** Decimal digits of a non-negative integer, most significant first,
    prepended to [acc]. *)
Fixpoint toDigits (fuel : nat) (n : Z) (acc : string) : string :=
  match fuel with
  | O => acc
  | S f =>
      let acc' := String (digitChar (n mod 10)) acc in
      if n / 10 =? 0 then acc' else toDigits f (n / 10) acc'
  end.

Definition digitFuel (n : Z) : nat := S (Z.to_nat (Z.log2 n)).

(** [Number::toString] on an integer of magnitude below [10^21] (beyond
    that JavaScript switches to exponent notation). *)
Definition numberToString (n : Z) : string :=
  if n <? 0 then String "-" (toDigits (digitFuel (- n)) (- n) EmptyString)
  else toDigits (digitFuel n) n EmptyString.

(** Integers on which binary64 arithmetic is exact. *)
Definition exactInt (n : Z) : Prop := - 2 ^ 53 <= n <= 2 ^ 53.

End JS.

Example parseInt_likes : JS.parseInt "12 likes" = Some 12.
Proof. reflexivity. Qed.
Example parseInt_hex : JS.parseInt "  0x1F likes" = Some 31.
Proof. reflexivity. Qed.
Example parseInt_neg : JS.parseInt "-7px" = Some (-7).
Proof. reflexivity. Qed.
Example parseInt_nan : JS.parseInt "likes" = None.
Proof. reflexivity. Qed.
Example numberToString_ex : JS.numberToString 1204 = "1204"%string.
Proof. reflexivity. Qed.
Example numberToString_neg : JS.numberToString (-40) = "-40"%string.
Proof. reflexivity. Qed.
Example numberToString_0 : JS.numberToString 0 = "0"%string.
Proof. reflexivity. Qed.

(** ** Browser storage

    [localStorage] holds two keys.  The value under ['photoLikes'] is the
    JSON text of an object from photo titles to counts; the embedding keeps
    the object itself ([JSON.parse] after [JSON.stringify] returns it): its
    properties in enumeration order, each name once. *)

Definition LikesObj : Type := list (string * Z).

Record Storage : Type := mkStorage {
  theme_key : option string;        (* localStorage.getItem('theme') *)
  photoLikes_key : option LikesObj  (* localStorage.getItem('photoLikes') *)
}.

Definition setTheme (v : string) (st : Storage) : Storage :=
  {| theme_key := Some v; photoLikes_key := photoLikes_key st |}.

Definition setPhotoLikes (o : LikesObj) (st : Storage) : Storage :=
  {| theme_key := theme_key st; photoLikes_key := Some o |}.

(** Truthiness of what [getItem] returns: [null] and the empty string are
    falsy. *)
Definition truthy (v : option string) : bool :=
  match v with
  | Some s => negb (String.eqb s "")
  | None => false
  end.

(** ** ThemeManager *)

Module ThemeManager.

(** What the browser offers: [window.matchMedia] may be missing; when it is
    there the query [(prefers-color-scheme: dark)] has a current answer. *)
Record Env : Type := mkEnv {
  prefersDark : option bool
}.

Record State : Type := mkState {
  currentTheme : string;        (* this.currentTheme *)
  dataTheme : option string;    (* documentElement's data-theme attribute *)
  iconText : string;            (* textContent of the .theme-icon element *)
  bodyTransition : string;      (* document.body.style.transition *)
  pendingClears : nat;          (* 300 ms timers that reset the transition *)
  mediaListener : bool;         (* the 'change' listener is registered *)
  storage : Storage
}.

Definition sun : string := "☀️".
Definition moon : string := "🌙".

(** The document before the script runs. *)
Definition initial (icon : string) (st : Storage) : State :=
  {| currentTheme := ""; dataTheme := None; iconText := icon;
     bodyTransition := ""; pendingClears := 0; mediaListener := false;
     storage := st |}.

Definition applyTheme (theme : string) (s : State) : State :=
  {| currentTheme := currentTheme s;
     dataTheme := Some theme;
     iconText := if String.eqb theme "dark" then sun else moon;
     bodyTransition := bodyTransition s;
     pendingClears := pendingClears s;
     mediaListener := mediaListener s;
     storage := setTheme theme (storage s) |}.

Definition setCurrentTheme (theme : string) (s : State) : State :=
  {| currentTheme := theme; dataTheme := dataTheme s; iconText := iconText s;
     bodyTransition := bodyTransition s; pendingClears := pendingClears s;
     mediaListener := mediaListener s; storage := storage s |}.

Definition toggleTheme (s : State) : State :=
  let s1 := setCurrentTheme
              (if String.eqb (currentTheme s) "dark" then "light" else "dark") s in
  let s2 := applyTheme (currentTheme s1) s1 in
  {| currentTheme := currentTheme s2; dataTheme := dataTheme s2;
     iconText := iconText s2;
     bodyTransition := "background-color 0.3s ease, color 0.3s ease";
     pendingClears := S (pendingClears s2);
     mediaListener := mediaListener s2; storage := storage s2 |}.

(** The timer set by [toggleTheme]. *)
Definition clearTransition (s : State) : State :=
  {| currentTheme := currentTheme s; dataTheme := dataTheme s;
     iconText := iconText s; bodyTransition := "";
     pendingClears := pred (pendingClears s);
     mediaListener := mediaListener s; storage := storage s |}.

(** The listener on the media query. *)
Definition onSystemChange (matches : bool) (s : State) : State :=
  if negb (truthy (theme_key (storage s))) then
    let s1 := setCurrentTheme (if matches then "dark" else "light") s in
    applyTheme (currentTheme s1) s1
  else s.

Definition bindEvents (env : Env) (s : State) : State :=
  {| currentTheme := currentTheme s; dataTheme := dataTheme s;
     iconText := iconText s; bodyTransition := bodyTransition s;
     pendingClears := pendingClears s;
     mediaListener := match prefersDark env with Some _ => true | None => false end;
     storage := storage s |}.

Definition init (env : Env) (s : State) : State :=
  bindEvents env (applyTheme (currentTheme s) s).

(** [new ThemeManager()]. *)
Definition constructor (env : Env) (s : State) : State :=
  let saved := theme_key (storage s) in
  let theme := match saved with
               | Some v => if truthy saved then v else "light"
               | None => "light"
               end in
  init env (setCurrentTheme theme s).

(** What can happen to the manager once it is constructed. *)
Inductive Event : Type :=
  | ToggleClick                     (* click on #themeToggle *)
  | SystemChange (matches : bool)   (* the media query changed *)
  | TransitionTimer                 (* a 300 ms timer fires *)
  | LikesWritten (o : LikesObj).    (* the gallery stores 'photoLikes' *)

Definition step (e : Event) (s : State) : State :=
  match e with
  | ToggleClick => toggleTheme s
  | SystemChange m => if mediaListener s then onSystemChange m s else s
  | TransitionTimer => if (0 <? pendingClears s)%nat then clearTransition s else s
  | LikesWritten o =>
      {| currentTheme := currentTheme s; dataTheme := dataTheme s;
         iconText := iconText s; bodyTransition := bodyTransition s;
         pendingClears := pendingClears s; mediaListener := mediaListener s;
         storage := setPhotoLikes o (storage s) |}
  end.

Definition run (es : list Event) (s : State) : State :=
  foldl (fun s e => step e s) s es.

End ThemeManager.

(** ** File validation *)

Record File : Type := mkFile {
  file_name : string;
  file_type : string;   (* MIME type reported by the browser *)
  file_size : Z         (* bytes *)
}.

(** A call either returns or throws [new Error(message)]. *)
Inductive Completion (A : Type) : Type :=
  | Normal (a : A)
  | Throw (message : string).
Arguments Normal {A} a.
Arguments Throw {A} message.

Definition allowedTypes : list string :=
  ["image/jpeg"; "image/jpg"; "image/png"; "image/gif"; "image/webp"]%string.

Definition maxSize : Z := 10 * 1024 * 1024.

(** [Array.prototype.includes] on strings. *)
Definition includes (l : list string) (x : string) : bool :=
  existsb (String.eqb x) l.

Definition invalidTypeMessage : string :=
  "Invalid file type. Please upload JPEG, PNG, GIF, or WebP images only.".
Definition tooLargeMessage : string :=
  "File too large. Please upload images smaller than 10MB.".

Definition validateImageFile (file : File) : Completion bool :=
  if negb (includes allowedTypes (file_type file)) then Throw invalidTypeMessage
  else if file_size file >? maxSize then Throw tooLargeMessage
  else Normal true.

(** ** GalleryManager *)

Module GalleryManager.

(** A [.photo-item] element, with the parts of it the script reads and
    writes. *)
Record PhotoItem : Type := mkPhotoItem {
  category : option string;   (* item.dataset.category *)
  classList : list string;    (* item.classList *)
  animation : string;         (* item.style.animation *)
  title : string;             (* textContent of the item's h3 *)
  likesText : string;         (* textContent of the item's .photo-likes *)
  likeAnimation : string      (* style.animation of the item's like button *)
}.

(** A [.photo-placeholder] element. *)
Record Placeholder : Type := mkPlaceholder {
  backgroundImage : string;
  backgroundSize : string;
  backgroundPosition : string;
  innerHTML : string;
  color : string;
  pulse : string              (* placeholder.style.animation *)
}.

(** Elements the script appends to [document.body]. *)
Inductive BodyNode : Type :=
  | FileInput
  | PhotoModal (imageSrc : string) (fade : string)
  | ErrorMessage (message : string) (slide : string).

(** Callbacks handed to [setTimeout]; the delay is in the comment. *)
Inductive Timer : Type :=
  | ClearPulse (placeholder : nat)     (* 600 ms, displayUploadedPhoto *)
  | ClearHeartBeat (item : nat)        (* 600 ms, handleLike *)
  | RemoveModal (modal : nat)          (* 300 ms, closeModal *)
  | SlideOutError (err : nat)          (* 3000 ms, showError *)
  | RemoveError (err : nat).           (* 300 ms after the slide-out starts *)

Record Page : Type := mkPage {
  photoItems : list PhotoItem;        (* this.photoItems *)
  currentFilter : option string;      (* this.currentFilter *)
  placeholders : list Placeholder;
  body : list (nat * BodyNode);       (* created children of body, by identity *)
  nextNode : nat;                     (* identity of the next created element *)
  loadingDisplay : string;            (* #loadingIndicator style.display *)
  timers : list Timer;                (* pending timers, in scheduling order *)
  console : list string;              (* what console.error has logged *)
  storage : Storage
}.

Definition withPhotoItems (v : list PhotoItem) (g : Page) : Page :=
  {| photoItems := v; currentFilter := currentFilter g;
     placeholders := placeholders g; body := body g; nextNode := nextNode g;
     loadingDisplay := loadingDisplay g; timers := timers g;
     console := console g; storage := storage g |}.

Definition withCurrentFilter (v : option string) (g : Page) : Page :=
  {| photoItems := photoItems g; currentFilter := v;
     placeholders := placeholders g; body := body g; nextNode := nextNode g;
     loadingDisplay := loadingDisplay g; timers := timers g;
     console := console g; storage := storage g |}.

Definition withPlaceholders (v : list Placeholder) (g : Page) : Page :=
  {| photoItems := photoItems g; currentFilter := currentFilter g;
     placeholders := v; body := body g; nextNode := nextNode g;
     loadingDisplay := loadingDisplay g; timers := timers g;
     console := console g; storage := storage g |}.

Definition withBody (v : list (nat * BodyNode)) (g : Page) : Page :=
  {| photoItems := photoItems g; currentFilter := currentFilter g;
     placeholders := placeholders g; body := v; nextNode := nextNode g;
     loadingDisplay := loadingDisplay g; timers := timers g;
     console := console g; storage := storage g |}.

Definition withLoadingDisplay (v : string) (g : Page) : Page :=
  {| photoItems := photoItems g; currentFilter := currentFilter g;
     placeholders := placeholders g; body := body g; nextNode := nextNode g;
     loadingDisplay := v; timers := timers g;
     console := console g; storage := storage g |}.

Definition withTimers (v : list Timer) (g : Page) : Page :=
  {| photoItems := photoItems g; currentFilter := currentFilter g;
     placeholders := placeholders g; body := body g; nextNode := nextNode g;
     loadingDisplay := loadingDisplay g; timers := v;
     console := console g; storage := storage g |}.

Definition withConsole (v : list string) (g : Page) : Page :=
  {| photoItems := photoItems g; currentFilter := currentFilter g;
     placeholders := placeholders g; body := body g; nextNode := nextNode g;
     loadingDisplay := loadingDisplay g; timers := timers g;
     console := v; storage := storage g |}.

Definition withStorage (v : Storage) (g : Page) : Page :=
  {| photoItems := photoItems g; currentFilter := currentFilter g;
     placeholders := placeholders g; body := body g; nextNode := nextNode g;
     loadingDisplay := loadingDisplay g; timers := timers g;
     console := console g; storage := v |}.

(** [setTimeout(callback, delay)]. *)
Definition setTimeout (t : Timer) (g : Page) : Page :=
  withTimers (timers g ++ [t]) g.

(** [document.createElement] followed by [document.body.appendChild]: the
    new element gets the next identity. *)
Definition appendChild (n : BodyNode) (g : Page) : Page :=
  {| photoItems := photoItems g; currentFilter := currentFilter g;
     placeholders := placeholders g;
     body := body g ++ [(nextNode g, n)]; nextNode := S (nextNode g);
     loadingDisplay := loadingDisplay g; timers := timers g;
     console := console g; storage := storage g |}.

Definition isChild (id : nat) (g : Page) : bool :=
  existsb (fun c => Nat.eqb (fst c) id) (body g).

(** [document.body.removeChild(node)]: throws when the node is not a child
    of body. *)
Definition removeChild (id : nat) (g : Page) : Completion Page :=
  if isChild id g
  then Normal (withBody (filter (fun c => fst c ≠ id) (body g)) g)
  else Throw "NotFoundError".

(** [GalleryManager] constructor on the photo entries of the markup. *)
Definition constructor (markup : list PhotoItem) (phs : list Placeholder)
    (st : Storage) : Page :=
  {| photoItems := markup; currentFilter := Some "all"%string;
     placeholders := phs; body := []; nextNode := 0;
     loadingDisplay := ""; timers := []; console := []; storage := st |}.


(** *** Filtering *)

(** [DOMTokenList] operations on [classList]. *)
Definition contains (tok : string) (l : list string) : bool :=
  existsb (String.eqb tok) l.
Definition classRemove (tok : string) (l : list string) : list string :=
  filter (fun c => c ≠ tok) l.
Definition classAdd (tok : string) (l : list string) : list string :=
  if contains tok l then l else l ++ [tok].

(** Strict equality [===] of two values that are a string or [undefined]. *)
Definition strictEq (a b : option string) : bool :=
  match a, b with
  | Some x, Some y => String.eqb x y
  | None, None => true
  | _, _ => false
  end.

Definition filterItem (filter : option string) (item : PhotoItem) : PhotoItem :=
  let shouldShow := strictEq filter (Some "all"%string)
                    || strictEq (category item) filter in
  if shouldShow then
    {| category := category item;
       classList := classRemove "hidden" (classList item);
       animation := "fadeInUp 0.5s ease forwards";
       title := title item; likesText := likesText item;
       likeAnimation := likeAnimation item |}
  else
    {| category := category item;
       classList := classAdd "hidden" (classList item);
       animation := "fadeOutDown 0.3s ease forwards";
       title := title item; likesText := likesText item;
       likeAnimation := likeAnimation item |}.

Definition filterPhotos (filter : option string) (g : Page) : Page :=
  withPhotoItems (filterItem filter <$> photoItems g) (withCurrentFilter filter g).

(** An entry is visible when it is not marked [hidden]. *)
Definition visible (item : PhotoItem) : bool :=
  negb (contains "hidden" (classList item)).

(** *** Likes *)

(** The entry of an object used as a map under [key]: the value of the own
    property of that name, which is what [Object.entries] and
    [JSON.stringify] list. *)
Fixpoint objGet (key : string) (o : LikesObj) : option Z :=
  match o with
  | [] => None
  | (k, v) :: r => if String.eqb k key then Some v else objGet key r
  end.

(** [key] is an own property. *)
Fixpoint hasOwn (key : string) (o : LikesObj) : bool :=
  match o with
  | [] => false
  | (k, _) :: r => String.eqb k key || hasOwn key r
  end.

(** Assignment to an own property: the property keeps its place. *)
Fixpoint replaceOwn (key : string) (v : Z) (o : LikesObj) : LikesObj :=
  match o with
  | [] => []
  | (k, w) :: r => if String.eqb k key then (key, v) :: r
                   else (k, w) :: replaceOwn key v r
  end.

Definition isDigit (c : ascii) : bool :=
  (48 <=? JS.code c) && (JS.code c <=? 57).

Fixpoint allDigits (s : string) : bool :=
  match s with
  | String c r => isDigit c && allDigits r
  | EmptyString => true
  end.

(** A property name that is an array index: the canonical decimal text of
    an integer from 0 to 2^32 - 2.  Such names are enumerated first, in
    ascending order. *)
Definition arrayIndex (key : string) : option Z :=
  match key with
  | EmptyString => None
  | String c r =>
      if allDigits key
         && (negb (Ascii.eqb c "0") || String.eqb r EmptyString)
      then
        let n := JS.digitsValue 10 (JS.digitPrefix 10 key) in
        if n <=? 4294967294 then Some n else None
      else None
  end.

(** A new array-index property takes its place by value among the
    array-index properties at the front. *)
Fixpoint insertIndex (n : Z) (key : string) (v : Z) (o : LikesObj) : LikesObj :=
  match o with
  | [] => [(key, v)]
  | (k, w) :: r =>
      match arrayIndex k with
      | Some m => if m <? n then (k, w) :: insertIndex n key v r
                  else (key, v) :: (k, w) :: r
      | None => (key, v) :: (k, w) :: r
      end
  end.

(** [obj[key] = v] for a number [v] on an object that came from
    [JSON.parse].  An own property is overwritten.  Otherwise the name
    [__proto__] reaches the setter inherited from [Object.prototype], which
    ignores a number: nothing is stored.  Any other new name becomes an own
    property, an array index among the array indices, another name last. *)
Definition objSet (key : string) (v : Z) (o : LikesObj) : LikesObj :=
  if hasOwn key o then replaceOwn key v o
  else if String.eqb key "__proto__" then o
  else match arrayIndex key with
       | Some n => insertIndex n key v o
       | None => o ++ [(key, v)]
       end.

(** The template literal [`${n} likes`]. *)
Definition likesLabel (n : Z) : string := JS.numberToString n +:+ " likes".

(** The count an entry displays, as the script reads it back:
    [parseInt(likesElement.textContent) || 0]. *)
Definition displayedLikes (item : PhotoItem) : Z :=
  JS.orZero (JS.parseInt (likesText item)).

Definition setLikesText (text : string) (item : PhotoItem) : PhotoItem :=
  {| category := category item; classList := classList item;
     animation := animation item; title := title item;
     likesText := text; likeAnimation := likeAnimation item |}.

Definition setLikeAnimation (a : string) (item : PhotoItem) : PhotoItem :=
  {| category := category item; classList := classList item;
     animation := animation item; title := title item;
     likesText := likesText item; likeAnimation := a |}.

(** [localStorage.getItem('photoLikes') || '{}'], parsed. *)
Definition savedLikes (st : Storage) : LikesObj :=
  match photoLikes_key st with
  | Some o => o
  | None => []
  end.

(** [handleLike(button)] for the like button of entry [i]. *)
Definition handleLike (i : nat) (g : Page) : Page :=
  match photoItems g !! i with
  | None => g
  | Some photoItem =>
      let currentLikes := JS.orZero (JS.parseInt (likesText photoItem)) in
      let newLikes := currentLikes + 1 in
      let item1 := setLikesText (likesLabel newLikes) photoItem in
      let item2 := setLikeAnimation "heartBeat 0.6s ease" item1 in
      let g1 := setTimeout (ClearHeartBeat i)
                  (withPhotoItems (<[i := item2]> (photoItems g)) g) in
      let photoId := title photoItem in
      let likes := savedLikes (storage g1) in
      withStorage (setPhotoLikes (objSet photoId newLikes likes) (storage g1)) g1
  end.

(** The last block of the [DOMContentLoaded] handler: every saved entry is
    written to the first photo entry with that title. *)
Definition restoreEntry (entry : string * Z) (items : list PhotoItem)
    : list PhotoItem :=
  match list_find (fun item => title item = fst entry) items with
  | Some (i, photoItem) => <[i := setLikesText (likesLabel (snd entry)) photoItem]> items
  | None => items
  end.

Definition loadSavedLikes (g : Page) : Page :=
  withPhotoItems
    (foldl (fun items e => restoreEntry e items) (photoItems g)
           (savedLikes (storage g)))
    g.

(** A page load: the markup is what the server sent, the storage is what
    the last visit left. *)
Definition reload (markup : list PhotoItem) (phs : list Placeholder)
    (st : Storage) : Page :=
  loadSavedLikes (constructor markup phs st).

(** *** Errors, uploads *)

(** [showError(message)]: a notice is appended to body; a 3 s timer starts
    its slide-out. *)
Definition showError (message : string) (g : Page) : Page :=
  let err := nextNode g in
  setTimeout (SlideOutError err)
    (appendChild (ErrorMessage message "slideInRight 0.3s ease") g).

Definition displayUploadedPhoto (ph : nat) (imageSrc : string) (g : Page) : Page :=
  let paint (p : Placeholder) : Placeholder :=
    {| backgroundImage := "url(" +:+ imageSrc +:+ ")";
       backgroundSize := "cover";
       backgroundPosition := "center";
       innerHTML := "";
       color := "transparent";
       pulse := "pulse 0.6s ease" |} in
  setTimeout (ClearPulse ph)
    (withPlaceholders (alter paint ph (placeholders g)) g).

(** What the file picker reports: a [change] event with the chosen files,
    or a [cancel] event. *)
Inductive PickerEvent : Type :=
  | Change (files : list File)
  | Cancel.

(** What the [FileReader] reports: [onload] with a data URI, or [onerror]. *)
Inductive ReadOutcome : Type :=
  | Loaded (result : string)
  | ReadFailed.

(** The promise awaited by [handlePhotoUpload]: how it settles on the
    picker's event. *)
Definition pickedFile (pick : PickerEvent) : Completion File :=
  match pick with
  | Change files =>
      match head files with
      | Some file =>
          match validateImageFile file with
          | Normal _ => Normal file
          | Throw message => Throw message
          end
      | None => Throw "No file selected"
      end
  | Cancel => Throw "Upload cancelled"
  end.

(** [handlePhotoUpload(placeholder)] for placeholder [ph]. *)
Definition handlePhotoUpload (ph : nat) (pick : PickerEvent) (read : ReadOutcome)
    (g : Page) : Page :=
  let input := nextNode g in
  let g1 := appendChild FileInput g in
  match pickedFile pick with
  | Normal file =>
      match removeChild input g1 with
      | Normal g2 =>
          let g3 := withLoadingDisplay "block" g2 in
          match read with
          | Loaded result =>
              withLoadingDisplay "none" (displayUploadedPhoto ph result g3)
          | ReadFailed =>
              withLoadingDisplay "none"
                (showError "Failed to read file. Please try again." g3)
          end
      | Throw message => showError message g1
      end
  | Throw message => showError message g1
  end.

(** The error notices currently in the document. *)
Definition errorsShown (g : Page) : list string :=
  omap (fun c => match snd c with
                 | ErrorMessage message _ => Some message
                 | _ => None
                 end) (body g).

(** *** The photo overlay *)

(** The elements of one overlay: [.photo-modal] contains [.modal-backdrop],
    which contains [.modal-content], which contains the close button and
    the image. *)
Inductive ModalPart : Type :=
  | Modal | Backdrop | Content | CloseBtn | Image.

Definition parentPart (p : ModalPart) : option ModalPart :=
  match p with
  | Modal => None
  | Backdrop => Some Modal
  | Content => Some Backdrop
  | CloseBtn => Some Content
  | Image => Some Content
  end.

(** The target and its ancestors inside the overlay, target first: the
    order in which a bubbling event reaches them. *)
Fixpoint pathFrom (fuel : nat) (p : ModalPart) : list ModalPart :=
  match fuel with
  | O => []
  | S f => p :: match parentPart p with
                | Some q => pathFrom f q
                | None => []
                end
  end.

Definition propagationPath (p : ModalPart) : list ModalPart := pathFrom 4 p.

Inductive ModalEvent : Type :=
  | Click (target : ModalPart)
  | KeyDown (key : string) (target : ModalPart).

Definition eventTarget (e : ModalEvent) : ModalPart :=
  match e with
  | Click t => t
  | KeyDown _ t => t
  end.

Definition setFade (modal : nat) (a : string) (g : Page) : Page :=
  withBody ((fun c => match c with
                      | (id, PhotoModal src _) =>
                          if Nat.eqb id modal then (id, PhotoModal src a) else c
                      | _ => c
                      end) <$> body g) g.

(** [closeModal] of the overlay [modal]. *)
Definition closeModal (modal : nat) (g : Page) : Page :=
  setTimeout (RemoveModal modal) (setFade modal "fadeOut 0.3s ease forwards" g).

(** [createPhotoModal(imageSrc)]; the overlay's identity is [nextNode g]. *)
Definition createPhotoModal (imageSrc : string) (g : Page) : Page :=
  appendChild (PhotoModal imageSrc "") g.

(** The listeners [createPhotoModal] registers, as what runs when event [e]
    reaches part [p] of overlay [modal]. *)
Definition listenersAt (modal : nat) (e : ModalEvent) (p : ModalPart)
    (g : Page) : Page :=
  match e, p with
  | Click _, CloseBtn => closeModal modal g
  | Click _, Backdrop => closeModal modal g
  | KeyDown key _, Modal =>
      if String.eqb key "Escape" then closeModal modal g else g
  | _, _ => g
  end.

(** An event on a part of overlay [modal], which is in the document. *)
Definition dispatchEvent (modal : nat) (e : ModalEvent) (g : Page) : Page :=
  if isChild modal g
  then foldl (fun g p => listenersAt modal e p g) g (propagationPath (eventTarget e))
  else g.

(** *** Timers *)

Definition setSlide (err : nat) (a : string) (g : Page) : Page :=
  withBody ((fun c => match c with
                      | (id, ErrorMessage m _) =>
                          if Nat.eqb id err then (id, ErrorMessage m a) else c
                      | _ => c
                      end) <$> body g) g.

Definition setPulse (a : string) (p : Placeholder) : Placeholder :=
  {| backgroundImage := backgroundImage p; backgroundSize := backgroundSize p;
     backgroundPosition := backgroundPosition p; innerHTML := innerHTML p;
     color := color p; pulse := a |}.

(** An exception thrown by a timer callback is uncaught: the window's
    [error] listener logs it. *)
Definition uncaught (c : Completion Page) (g : Page) : Page :=
  match c with
  | Normal g' => g'
  | Throw message => withConsole (console g ++ ["Unhandled error: " +:+ message]) g
  end.

(** Running the callback of a timer. *)
Definition fire (t : Timer) (g : Page) : Page :=
  match t with
  | ClearPulse ph => withPlaceholders (alter (setPulse "") ph (placeholders g)) g
  | ClearHeartBeat i => withPhotoItems (alter (setLikeAnimation "") i (photoItems g)) g
  | RemoveModal modal => uncaught (removeChild modal g) g
  | SlideOutError err =>
      setTimeout (RemoveError err) (setSlide err "slideOutRight 0.3s ease forwards" g)
  | RemoveError err => uncaught (removeChild err g) g
  end.

(** The [k]-th pending timer comes due and fires. *)
Definition fireAt (k : nat) (g : Page) : Page :=
  match timers g !! k with
  | None => g
  | Some t => fire t (withTimers (delete k (timers g)) g)
  end.

(** The oldest pending timer fires; timers of equal delay fire in this
    order. *)
Definition tick (g : Page) : Page := fireAt 0 g.

Fixpoint ticks (n : nat) (g : Page) : Page :=
  match n with
  | O => g
  | S k => ticks k (tick g)
  end.

End GalleryManager.

(** ** Binary64 arithmetic

    [optimizeImage] divides and multiplies JavaScript numbers.  A finite
    binary64 value is modelled as the rational it denotes, and an operation
    as the exact operation followed by [round]: to nearest, ties to even, 53
    significant bits.  The exponent range is not modelled: the embedding is
    the script's for non-zero results of magnitude between 2^-1022 and
    2^1024, which covers the quotients and products of positive integers
    below 2^32 that the statements about [optimizeImage] range over.  A
    division by zero ([Infinity] or [NaN] in JavaScript) is outside it. *)

Module Binary64.

Local Open Scope Q_scope.

Definition pow2 (e : Z) : Q := Qpower 2 e.

(** The unit roundoff [2^-53]. *)
Definition unitRoundoff : Q := 1 # 9007199254740992.

(** For positive [x], the exponent [k] with [2^k <= x < 2^(k+1)]. *)
Definition ilog2 (x : Q) : Z :=
  let k := (Z.log2 (Qnum x) - Z.log2 (Zpos (Qden x)))%Z in
  if Qle_bool (pow2 k) x then k else (k - 1)%Z.

(** The nearest integer, a tie going to the even one. *)
Definition roundEven (y : Q) : Z :=
  let f := Qfloor y in
  match Qcompare (y - inject_Z f) (1 # 2) with
  | Lt => f
  | Gt => (f + 1)%Z
  | Eq => if Z.even f then f else (f + 1)%Z
  end.

(** A positive [x] is scaled so that its integer part has 53 bits, rounded
    to an integer and scaled back. *)
Definition roundPos (x : Q) : Q :=
  let e := (ilog2 x - 52)%Z in
  inject_Z (roundEven (x / pow2 e)) * pow2 e.

Definition round (x : Q) : Q :=
  match Qnum x with
  | Z0 => 0
  | Zpos _ => Qred (roundPos x)
  | Zneg _ => Qred (- roundPos (- x))
  end.

(** The operators [/] and [*] on numbers. *)
Definition div (x y : Q) : Q := round (x / y).
Definition mul (x y : Q) : Q := round (x * y).

(** The rational a primitive float of the kernel denotes, if it is finite.
    The kernel's floats are binary64 with the same rounding; they serve to
    test [round] on concrete inputs. *)
Definition ofFloat (f : PrimFloat.float) : option Q :=
  match FloatOps.Prim2SF f with
  | SpecFloat.S754_zero _ => Some 0
  | SpecFloat.S754_finite s m e =>
      Some (Qred ((if s then -1 else 1) * inject_Z (Zpos m) * pow2 e))
  | _ => None
  end.

(** An integer from 0 to [2^53] as a float. *)
Definition toFloat (n : Z) : PrimFloat.float := PrimFloat.of_uint63 (Uint63.of_Z n).

End Binary64.

(** ** PerformanceManager *)

Module PerformanceManager.

(** A decoded image: [img.width] and [img.height]. *)
Record Img : Type := mkImg {
  width : Z;
  height : Z
}.

(** What [canvas.toBlob] is asked to encode. *)
Record Blob : Type := mkBlob {
  blobType : string;
  blobQuality : Q;
  canvasWidth : Z;
  canvasHeight : Z
}.

(** [Math.min(maxWidth / img.width, maxWidth / img.height)]. *)
Definition ratio (img : Img) (maxWidth : Q) : Q :=
  Qmin (Binary64.div maxWidth (inject_Z (width img)))
       (Binary64.div maxWidth (inject_Z (height img))).

(** [img.width * ratio] and [img.height * ratio]. *)
Definition scaledWidth (img : Img) (maxWidth : Q) : Q :=
  Binary64.mul (inject_Z (width img)) (ratio img maxWidth).
Definition scaledHeight (img : Img) (maxWidth : Q) : Q :=
  Binary64.mul (inject_Z (height img)) (ratio img maxWidth).

(** [window.optimizeImage(file, maxWidth = 1200, quality = 0.8)] once the
    file has been decoded to [img]; an omitted argument is [None].  The
    literal [0.8] is the binary64 value nearest to 8/10.  The canvas
    dimensions are integers: assigning a number from 0 to below 2^31 keeps
    its integer part. *)
Definition optimizeImage (img : Img) (maxWidth quality : option Q) : Blob :=
  let maxWidth := default (1200 # 1) maxWidth in
  let quality := default (Binary64.round (8 # 10)) quality in
  {| blobType := "image/jpeg";
     blobQuality := quality;
     canvasWidth := Qfloor (scaledWidth img maxWidth);
     canvasHeight := Qfloor (scaledHeight img maxWidth) |}.

(** Lines 655 to 657 over the kernel's primitive floats, for integer
    dimensions and [maxWidth]: the two products before the canvas keeps
    their integer parts. *)
Definition scaledFloat (img : Img) (maxWidth : Z) : option Q * option Q :=
  let a := PrimFloat.div (Binary64.toFloat maxWidth) (Binary64.toFloat (width img)) in
  let b := PrimFloat.div (Binary64.toFloat maxWidth) (Binary64.toFloat (height img)) in
  let ratio := if PrimFloat.ltb b a then b else a in
  (Binary64.ofFloat (PrimFloat.mul (Binary64.toFloat (width img)) ratio),
   Binary64.ofFloat (PrimFloat.mul (Binary64.toFloat (height img)) ratio)).

(** Whether the rational model and the primitive floats give the same two
    products. *)
Definition agrees (maxWidth : Z) (img : Img) : bool :=
  match scaledFloat img maxWidth with
  | (Some sw, Some sh) =>
      Qeq_bool sw (scaledWidth img (inject_Z maxWidth))
      && Qeq_bool sh (scaledHeight img (inject_Z maxWidth))
  | _ => false
  end.

(** Every image size with both dimensions from 1 to [n]. *)
Definition sizes (n : nat) : list Img :=
  w ← Z.of_nat <$> seq 1 n; h ← Z.of_nat <$> seq 1 n; [mkImg w h].

End PerformanceManager.

(** * Properties *)

(** ** Printing a count and reading it back *)

Section PrintParse.

Import JS.

Lemma digitChar_cases (d : Z) :
  0 <= d < 10 ->
  digitChar d = "0"%char \/ digitChar d = "1"%char \/ digitChar d = "2"%char \/
  digitChar d = "3"%char \/ digitChar d = "4"%char \/ digitChar d = "5"%char \/
  digitChar d = "6"%char \/ digitChar d = "7"%char \/ digitChar d = "8"%char \/
  digitChar d = "9"%char.
Proof.
  intros Hd.
  assert (d = 0 \/ d = 1 \/ d = 2 \/ d = 3 \/ d = 4 \/ d = 5 \/ d = 6 \/ d = 7
          \/ d = 8 \/ d = 9) as Hc by lia.
  repeat (destruct Hc as [-> | Hc]; [tauto |]). subst d. tauto.
Qed.

Lemma digitValue_digitChar (d : Z) :
  0 <= d < 10 -> digitValue 10 (digitChar d) = Some d.
Proof.
  intros Hd.
  assert (d = 0 \/ d = 1 \/ d = 2 \/ d = 3 \/ d = 4 \/ d = 5 \/ d = 6 \/ d = 7
          \/ d = 8 \/ d = 9) as Hc by lia.
  repeat (destruct Hc as [-> | Hc]; [reflexivity |]). subst d. reflexivity.
Qed.

(** A string that starts with a non-zero decimal digit is read in radix 10
    from its first character. *)
Lemma nonzero_head (d : Z) (rest : string) :
  1 <= d < 10 ->
  trimStart (String (digitChar d) rest) = String (digitChar d) rest /\
  signAndRest (String (digitChar d) rest) = (1, String (digitChar d) rest) /\
  radixAndRest (String (digitChar d) rest) = (10, String (digitChar d) rest).
Proof.
  intros Hd.
  assert (d = 1 \/ d = 2 \/ d = 3 \/ d = 4 \/ d = 5 \/ d = 6 \/ d = 7
          \/ d = 8 \/ d = 9) as Hc by lia.
  repeat (destruct Hc as [-> | Hc]; [repeat split |]). subst d. repeat split.
Qed.

Lemma toDigits_app (f : nat) (n : Z) (acc t : string) :
  toDigits f n acc +:+ t = toDigits f n (acc +:+ t).
Proof.
  revert n acc. induction f as [| f IH]; intros n acc; simpl; [reflexivity |].
  destruct (n / 10 =? 0); [reflexivity |]. now rewrite IH.
Qed.

Lemma half_fuel (f : nat) (n : Z) :
  0 <= n < 2 ^ Z.of_nat (S f) -> 0 <= n / 10 < 2 ^ Z.of_nat f.
Proof.
  intros [H0 H1]. rewrite Nat2Z.inj_succ, Z.pow_succ_r in H1 by lia.
  split; [apply Z.div_pos; lia |].
  apply Z.div_lt_upper_bound; lia.
Qed.

(** The digits written by [toDigits] are read back as the number. *)
Lemma toDigits_read (f : nat) : forall (n : Z) (s : string),
  0 <= n < 2 ^ Z.of_nat (S f) ->
  exists (ds : list Z) (p : Z),
    digitPrefix 10 (toDigits (S f) n s) = ds ++ digitPrefix 10 s /\
    ds <> [] /\
    forall a, fold_left (fun a d => a * 10 + d) ds a = a * p + n.
Proof.
  induction f as [| f IH]; intros n s Hn.
  - exists [n], 10. change (2 ^ Z.of_nat 1) with 2 in Hn.
    assert (n / 10 = 0) as Hq by (apply Z.div_small; lia).
    assert (n mod 10 = n) as Hr by (apply Z.mod_small; lia).
    simpl. rewrite Hq, Hr. simpl.
    rewrite digitValue_digitChar by lia.
    split; [reflexivity | split; [discriminate |]].
    intros a. simpl. reflexivity.
  - pose proof (Z.mod_pos_bound n 10 ltac:(lia)) as Hr.
    pose proof (Z.div_mod n 10 ltac:(lia)) as Hdm.
    cbn [toDigits]. destruct (n / 10 =? 0) eqn:Hq.
    + apply Z.eqb_eq in Hq. exists [n mod 10], 10.
      cbn [digitPrefix]. rewrite digitValue_digitChar by lia.
      split; [reflexivity | split; [discriminate |]]. intros a. simpl. lia.
    + destruct (IH (n / 10) (String (digitChar (n mod 10)) s) (half_fuel _ _ Hn))
        as (ds & p & Hds & Hne & Hfold).
      exists (ds ++ [n mod 10]), (p * 10). cbn [toDigits] in Hds. rewrite Hds.
      cbn [digitPrefix]. rewrite digitValue_digitChar by lia.
      split; [| split].
      * now rewrite <- app_assoc.
      * destruct ds; discriminate.
      * intros a. rewrite fold_left_app, Hfold. simpl. lia.
Qed.

(** A positive number is written with a non-zero first digit. *)
Lemma toDigits_head (f : nat) : forall (n : Z) (s : string),
  0 < n < 2 ^ Z.of_nat (S f) ->
  exists (d : Z) (rest : string),
    1 <= d < 10 /\ toDigits (S f) n s = String (digitChar d) rest.
Proof.
  induction f as [| f IH]; intros n s Hn.
  - change (2 ^ Z.of_nat 1) with 2 in Hn. assert (n = 1) as -> by lia.
    exists 1, s. split; [lia | reflexivity].
  - pose proof (Z.mod_pos_bound n 10 ltac:(lia)) as Hr.
    pose proof (Z.div_mod n 10 ltac:(lia)) as Hdm.
    cbn [toDigits]. destruct (n / 10 =? 0) eqn:Hq.
    + apply Z.eqb_eq in Hq. exists (n mod 10), s. split; [lia | reflexivity].
    + apply Z.eqb_neq in Hq.
      assert (0 <= n / 10 < 2 ^ Z.of_nat (S f)) as Hh by (apply half_fuel; lia).
      destruct (IH (n / 10) (String (digitChar (n mod 10)) s) ltac:(lia))
        as (d & rest & Hd & Heq).
      exists d, rest. split; [exact Hd |]. exact Heq.
Qed.

Lemma digitFuel_enough (n : Z) :
  0 <= n -> 0 <= n < 2 ^ Z.of_nat (digitFuel n).
Proof.
  intros H0. split; [exact H0 |]. unfold digitFuel.
  rewrite Nat2Z.inj_succ, Z2Nat.id by apply Z.log2_nonneg.
  destruct (Z.eq_dec n 0) as [-> | Hn]; [reflexivity |].
  apply Z.log2_spec. lia.
Qed.

(** Reading a non-negative number written before [" likes"]. *)
Lemma read_unsigned (n : Z) :
  0 <= n ->
  exists ds, digitPrefix 10 (toDigits (digitFuel n) n " likes") = ds /\
             ds <> [] /\ digitsValue 10 ds = n.
Proof.
  intros H0.
  destruct (toDigits_read (Z.to_nat (Z.log2 n)) n " likes" (digitFuel_enough n H0))
    as (ds & p & Hds & Hne & Hfold).
  exists ds. change (digitPrefix 10 " likes") with (@nil Z) in Hds.
  rewrite app_nil_r in Hds. split; [exact Hds | split; [exact Hne |]].
  unfold digitsValue. rewrite Hfold. lia.
Qed.

(** [parseInt] inverts the template literal of [handleLike]. *)
Lemma parseInt_numberToString (n : Z) :
  parseInt (numberToString n +:+ " likes") = Some n.
Proof.
  unfold numberToString. destruct (n <? 0) eqn:Hneg.
  - apply Z.ltb_lt in Hneg.
    change (String "-" ?x +:+ ?t) with (String "-" (x +:+ t)).
    rewrite toDigits_app. change (EmptyString +:+ " likes") with " likes"%string.
    destruct (read_unsigned (- n) ltac:(lia)) as (ds & Hds & Hne & Hval).
    destruct (toDigits_head (Z.to_nat (Z.log2 (- n))) (- n) " likes") as (d & rest & Hd & Hhead).
    { pose proof (digitFuel_enough (- n) ltac:(lia)). unfold digitFuel in *. lia. }
    fold (digitFuel (- n)) in Hhead.
    unfold parseInt. cbn [trimStart]. change (isWhiteSpace "-") with false.
    cbn [signAndRest]. cbv iota beta. rewrite Hhead in *.
    destruct (nonzero_head d rest Hd) as (_ & _ & ->).
    rewrite Hds. destruct ds as [| d0 ds]; [contradiction |].
    rewrite Hval. f_equal. lia.
  - apply Z.ltb_ge in Hneg. rewrite toDigits_app.
    change (EmptyString +:+ " likes") with " likes"%string.
    destruct (read_unsigned n Hneg) as (ds & Hds & Hne & Hval).
    destruct (Z.eq_dec n 0) as [-> | Hn0]; [reflexivity |].
    destruct (toDigits_head (Z.to_nat (Z.log2 n)) n " likes") as (d & rest & Hd & Hhead).
    { pose proof (digitFuel_enough n ltac:(lia)). unfold digitFuel in *. lia. }
    fold (digitFuel n) in Hhead.
    unfold parseInt. rewrite Hhead in *.
    destruct (nonzero_head d rest Hd) as (-> & -> & ->).
    rewrite Hds. destruct ds as [| d0 ds]; [contradiction |].
    rewrite Hval. f_equal. lia.
Qed.


Lemma orZero_Some (n : Z) : orZero (Some n) = n.
Proof. unfold orZero. destruct (n =? 0) eqn:H; [apply Z.eqb_eq in H; lia | reflexivity]. Qed.

End PrintParse.

(** ** Gallery: filtering *)

Section Filtering.

Import GalleryManager.

Lemma strictEq_eq (a b : option string) : strictEq a b = true <-> a = b.
Proof.
  destruct a as [x |], b as [y |]; simpl; try (split; congruence).
  rewrite String.eqb_eq. split; congruence.
Qed.

Lemma contains_classRemove (tok : string) (l : list string) :
  contains tok (classRemove tok l) = false.
Proof.
  unfold contains, classRemove. induction l as [| c l IH]; [reflexivity |].
  rewrite filter_cons. destruct (decide (c <> tok)) as [Hne | Heq]; [| exact IH].
  simpl. rewrite IH, orb_false_r. apply String.eqb_neq. congruence.
Qed.

Lemma contains_classAdd (tok : string) (l : list string) :
  contains tok (classAdd tok l) = true.
Proof.
  unfold classAdd. destruct (contains tok l) eqn:Hc; [exact Hc |].
  unfold contains. rewrite existsb_app. simpl.
  rewrite String.eqb_refl. now rewrite orb_true_r.
Qed.

Lemma visible_filterItem (f : option string) (item : PhotoItem) :
  visible (filterItem f item)
  = strictEq f (Some "all"%string) || strictEq (category item) f.
Proof.
  unfold filterItem, visible.
  destruct (strictEq f (Some "all"%string) || strictEq (category item) f); simpl.
  - now rewrite contains_classRemove.
  - now rewrite contains_classAdd.
Qed.

Lemma category_filterItem (f : option string) (item : PhotoItem) :
  category (filterItem f item) = category item.
Proof.
  unfold filterItem.
  now destruct (strictEq f (Some "all"%string) || strictEq (category item) f).
Qed.

(** A sequence of filter clicks. *)
Definition filterAll (fs : list (option string)) (g : Page) : Page :=
  foldl (fun g f => filterPhotos f g) g fs.

Lemma filterAll_category (fs : list (option string)) :
  forall (g : Page) (i : nat) (item : PhotoItem),
    photoItems g !! i = Some item ->
    exists item1, photoItems (filterAll fs g) !! i = Some item1 /\
                  category item1 = category item.
Proof.
  induction fs as [| f fs IH]; intros g i item Hi.
  - exists item. split; [exact Hi | reflexivity].
  - destruct (IH (filterPhotos f g) i (filterItem f item)) as (item1 & H1 & Hc).
    { simpl. now rewrite list_lookup_fmap, Hi. }
    exists item1. split; [exact H1 |]. now rewrite Hc, category_filterItem.
Qed.

(** C2. After [filterPhotos f], whatever filters were applied before, an
    entry is visible exactly when [f] is ["all"] or the entry's category is
    [f]; its category is the one of the markup. *)
Theorem filterPhotos_visible_iff
    (g : Page) (fs : list (option string)) (f : option string)
    (i : nat) (item : PhotoItem) :
  photoItems g !! i = Some item ->
  exists item',
    photoItems (filterPhotos f (filterAll fs g)) !! i = Some item' /\
    category item' = category item /\
    (visible item' = true <-> f = Some "all"%string \/ category item = f) /\
    photoItems (filterPhotos f g) !! i
    = Some (filterItem f item) /\
    visible item' = visible (filterItem f item).
Proof.
  intros Hi.
  destruct (filterAll_category fs g i item Hi) as (item1 & H1 & Hc).
  exists (filterItem f item1).
  split; [simpl; now rewrite list_lookup_fmap, H1 |].
  split; [now rewrite category_filterItem |].
  split; [| split].
  - rewrite visible_filterItem, orb_true_iff, !strictEq_eq, Hc. reflexivity.
  - simpl. now rewrite list_lookup_fmap, Hi.
  - now rewrite !visible_filterItem, Hc.
Qed.

Definition portraitItem : PhotoItem :=
  {| category := Some "portrait"%string; classList := ["photo-item"%string];
     animation := ""; title := "Sunset"; likesText := "3 likes";
     likeAnimation := "" |}.

Definition landscapeItem : PhotoItem :=
  {| category := Some "landscape"%string;
     classList := ["photo-item"; "hidden"]%string;
     animation := ""; title := "Dunes"; likesText := "0 likes";
     likeAnimation := "" |}.

Definition twoPhotos : Page :=
  constructor [portraitItem; landscapeItem] [] (mkStorage None None).

Lemma filterPhotos_visible_iff_witness :
  exists item',
    photoItems (filterPhotos (Some "portrait"%string)
                  (filterAll [Some "landscape"%string; Some "all"%string] twoPhotos))
      !! 1%nat = Some item' /\
    visible item' = false.
Proof.
  destruct (filterPhotos_visible_iff twoPhotos
              [Some "landscape"%string; Some "all"%string]
              (Some "portrait"%string) 1 landscapeItem eq_refl)
    as (item' & Hl & _ & _ & _ & Hv).
  exists item'. split; [exact Hl |]. rewrite Hv. reflexivity.
Defined.

End Filtering.

(** ** Gallery: likes *)

Section Likes.

Import GalleryManager.

Example arrayIndex_year : arrayIndex "2024" = Some 2024.
Proof. reflexivity. Qed.
Example arrayIndex_padded : arrayIndex "007" = None.
Proof. reflexivity. Qed.
Example arrayIndex_title : arrayIndex "Sunset" = None.
Proof. reflexivity. Qed.
Example objSet_order :
  objSet "2024" 1 (objSet "Sunset" 4 (objSet "7" 2 [])) 
  = [("7"%string, 2); ("2024"%string, 1); ("Sunset"%string, 4)].
Proof. reflexivity. Qed.
Example objSet_proto : objSet "__proto__" 4 [("Sunset"%string, 3)] = [("Sunset"%string, 3)].
Proof. reflexivity. Qed.

Lemma hasOwn_elem (key : string) (o : LikesObj) :
  hasOwn key o = true <-> key ∈ o.*1.
Proof.
  induction o as [| [k w] o IH]; simpl.
  - split; [discriminate | intros H; now apply elem_of_nil in H].
  - rewrite orb_true_iff, IH, elem_of_cons, String.eqb_eq. split; intros [H | H]; auto.
Qed.


Lemma objGet_insert_ne (key key' : string) (v : Z) (l1 l2 : LikesObj) :
  key <> key' -> objGet key' (l1 ++ (key, v) :: l2) = objGet key' (l1 ++ l2).
Proof.
  intros Hne. induction l1 as [| [k w] l1 IH]; simpl.
  - now apply String.eqb_neq in Hne as ->.
  - now rewrite IH.
Qed.

Lemma replaceOwn_shape (key : string) (v : Z) (o : LikesObj) :
  hasOwn key o = true ->
  exists l1 l2 w, o = l1 ++ (key, w) :: l2 /\ (key ∉ l1.*1) /\
                  replaceOwn key v o = l1 ++ (key, v) :: l2.
Proof.
  induction o as [| [k w] o IH]; simpl; [discriminate |].
  destruct (String.eqb k key) eqn:Hk; simpl.
  - apply String.eqb_eq in Hk as ->. intros _. exists [], o, w.
    split; [reflexivity |]. split; [apply not_elem_of_nil | reflexivity].
  - intros Ho. destruct (IH Ho) as (l1 & l2 & w' & -> & Hn & Hr).
    exists ((k, w) :: l1), l2, w'. simpl. rewrite Hr.
    split; [reflexivity |]. split; [| reflexivity].
    apply not_elem_of_cons. split; [| exact Hn].
    apply String.eqb_neq in Hk. congruence.
Qed.

Lemma insertIndex_shape (n : Z) (key : string) (v : Z) (o : LikesObj) :
  exists l1 l2, o = l1 ++ l2 /\ insertIndex n key v o = l1 ++ (key, v) :: l2.
Proof.
  induction o as [| [k w] o IH]; simpl.
  - now exists [], [].
  - destruct (arrayIndex k) as [m |]; [destruct (m <? n) |].
    + destruct IH as (l1 & l2 & -> & Hr). exists ((k, w) :: l1), l2.
      simpl. now rewrite Hr.
    + now exists [], ((k, w) :: o).
    + now exists [], ((k, w) :: o).
Qed.

(** What an assignment does to the property list. *)
Lemma objSet_shape (key : string) (v : Z) (o : LikesObj) :
  (key = "__proto__"%string /\ (key ∉ o.*1) /\ objSet key v o = o) \/
  exists l1 l2, objSet key v o = l1 ++ (key, v) :: l2 /\ (key ∉ l1.*1) /\
    (((key ∉ o.*1) /\ o = l1 ++ l2) \/ exists w, o = l1 ++ (key, w) :: l2).
Proof.
  unfold objSet. destruct (hasOwn key o) eqn:Ho.
  - right. destruct (replaceOwn_shape key v o Ho) as (l1 & l2 & w & Heq & Hn & Hr).
    exists l1, l2. split; [exact Hr |]. split; [exact Hn |]. right. now exists w.
  - assert (key ∉ o.*1) as Hn by (rewrite <- hasOwn_elem; congruence).
    destruct (String.eqb key "__proto__") eqn:Hp.
    + left. apply String.eqb_eq in Hp. now repeat split.
    + right. destruct (arrayIndex key) as [n |].
      * destruct (insertIndex_shape n key v o) as (l1 & l2 & Heq & Hr).
        exists l1, l2. split; [exact Hr |]. split; [| left; now split].
        rewrite Heq, fmap_app in Hn. intros H. apply Hn, elem_of_app. now left.
      * exists o, []. split; [reflexivity |]. split; [exact Hn |].
        left. split; [exact Hn | now rewrite app_nil_r].
Qed.


Lemma objGet_objSet_ne (key key' : string) (v : Z) (o : LikesObj) :
  key <> key' -> objGet key' (objSet key v o) = objGet key' o.
Proof.
  intros Hne.
  destruct (objSet_shape key v o)
    as [(_ & _ & ->) | (l1 & l2 & -> & Hn & [(_ & ->) | (w & ->)])];
    [reflexivity | |]; now rewrite !(objGet_insert_ne key key') by exact Hne.
Qed.

(** Property names stay distinct. *)
Lemma objSet_NoDup (key : string) (v : Z) (o : LikesObj) :
  NoDup o.*1 -> NoDup (objSet key v o).*1.
Proof.
  intros Hnd.
  destruct (objSet_shape key v o)
    as [(_ & _ & ->) | (l1 & l2 & -> & Hn & [(Hno & ->) | (w & ->)])];
    [exact Hnd | |].
  - rewrite fmap_app in *. simpl.
    apply NoDup_app in Hnd as (H1 & H12 & H2).
    apply NoDup_app. split; [exact H1 |]. split.
    + intros k Hk Hk'. apply elem_of_cons in Hk' as [-> | Hk']; [contradiction |].
      now apply (H12 k).
    + apply NoDup_cons. split; [| exact H2].
      intros H. apply Hno, elem_of_app. now right.
  - rewrite fmap_app in *. exact Hnd.
Qed.


(** The entry after one [handleLike] on it. *)
Definition liked (item : PhotoItem) : PhotoItem :=
  setLikeAnimation "heartBeat 0.6s ease"
    (setLikesText (likesLabel (displayedLikes item + 1)) item).

Lemma handleLike_same (g : Page) (i : nat) (item : PhotoItem) :
  photoItems g !! i = Some item ->
  photoItems (handleLike i g) !! i = Some (liked item) /\
  savedLikes (storage (handleLike i g))
  = objSet (title item) (displayedLikes item + 1) (savedLikes (storage g)).
Proof.
  intros Hi. unfold handleLike. rewrite Hi. simpl. split; [| reflexivity].
  apply list_lookup_insert_eq. now apply lookup_lt_Some in Hi.
Qed.

Lemma handleLike_other (g : Page) (i j : nat) :
  i <> j -> photoItems (handleLike j g) !! i = photoItems g !! i.
Proof.
  intros Hne. unfold handleLike.
  destruct (photoItems g !! j) as [item |] eqn:Hj; [| reflexivity].
  simpl. now apply list_lookup_insert_ne.
Qed.


(** How many of the clicks [js] were on entry [i]. *)
Definition clicksOn (i : nat) (js : list nat) : Z :=
  Z.of_nat (length (filter (fun j => j = i) js)).

Lemma clicksOn_bound (i : nat) (js : list nat) :
  0 <= clicksOn i js <= Z.of_nat (length js).
Proof.
  unfold clicksOn. pose proof (length_filter (fun j => j = i) js). lia.
Qed.











(** The example of the specification: a like on "Sunset" with count 3. *)
Example like_sunset :
  let g := handleLike 0 twoPhotos in
  likesText <$> photoItems g = ["4 likes"; "0 likes"]%string /\
  photoLikes_key (storage g) = Some [("Sunset"%string, 4)] /\
  timers g = [ClearHeartBeat 0].
Proof. repeat split. Qed.



End Likes.

(** ** Gallery: restoring the saved likes on page load *)

Section Restore.

Import GalleryManager.

(** [items.find(item => item.querySelector('h3').textContent === t)]. *)
Definition findTitle (t : string) (items : list PhotoItem) : option (nat * PhotoItem) :=
  list_find (fun item => title item = t) items.

Lemma restoreEntry_hit (t : string) (n : Z) (items : list PhotoItem)
    (i : nat) (item : PhotoItem) :
  findTitle t items = Some (i, item) ->
  findTitle t (restoreEntry (t, n) items)
  = Some (i, setLikesText (likesLabel n) item).
Proof.
  intros Hf. unfold restoreEntry, findTitle in *. simpl. rewrite Hf.
  apply list_find_Some in Hf as (Hi & Ht & Hfirst).
  apply list_find_Some. split; [| split].
  - apply list_lookup_insert_eq. now apply lookup_lt_Some in Hi.
  - exact Ht.
  - intros j y Hj Hlt. rewrite list_lookup_insert_ne in Hj by lia. eauto.
Qed.

Lemma restoreEntry_miss (t t' : string) (n' : Z) (items : list PhotoItem)
    (i : nat) (item : PhotoItem) :
  t' <> t ->
  findTitle t items = Some (i, item) ->
  findTitle t (restoreEntry (t', n') items) = Some (i, item).
Proof.
  intros Hne Hf. unfold restoreEntry, findTitle in *. simpl.
  destruct (list_find (fun it => title it = t') items) as [[k other] |] eqn:Hk;
    [| exact Hf].
  apply list_find_Some in Hf as (Hi & Ht & Hfirst).
  apply list_find_Some in Hk as (Hk & Hkt & _).
  assert (k <> i) as Hki by (intros ->; congruence).
  apply list_find_Some. split; [| split].
  - now rewrite list_lookup_insert_ne.
  - exact Ht.
  - intros j y Hj Hlt. destruct (decide (k = j)) as [-> | Hkj].
    + rewrite list_lookup_insert_eq in Hj by now apply lookup_lt_Some in Hk.
      injection Hj as <-. simpl. congruence.
    + rewrite list_lookup_insert_ne in Hj by exact Hkj. eauto.
Qed.

Definition restoreAll (entries : LikesObj) (items : list PhotoItem) : list PhotoItem :=
  foldl (fun items e => restoreEntry e items) items entries.

Lemma restoreAll_absent (t : string) (entries : LikesObj) :
  forall (items : list PhotoItem) (i : nat) (item : PhotoItem),
    t ∉ entries.*1 ->
    findTitle t items = Some (i, item) ->
    findTitle t (restoreAll entries items) = Some (i, item).
Proof.
  induction entries as [| [k v] es IH]; intros items i item Hnin Hf; [exact Hf |].
  simpl in Hnin. apply not_elem_of_cons in Hnin as [Hk Hnin].
  simpl. apply IH; [exact Hnin |]. apply restoreEntry_miss; [congruence | exact Hf].
Qed.

Lemma restoreAll_present (t : string) (n : Z) (entries : LikesObj) :
  forall (items : list PhotoItem) (i : nat) (item : PhotoItem),
    NoDup entries.*1 ->
    (t, n) ∈ entries ->
    findTitle t items = Some (i, item) ->
    findTitle t (restoreAll entries items)
    = Some (i, setLikesText (likesLabel n) item).
Proof.
  induction entries as [| [k v] es IH]; intros items i item Hnd Hin Hf.
  - now apply elem_of_nil in Hin.
  - simpl in Hnd. apply NoDup_cons in Hnd as [Hk Hnd].
    apply elem_of_cons in Hin as [Heq | Hin].
    + injection Heq as <- <-. simpl.
      apply restoreAll_absent; [exact Hk |]. now apply restoreEntry_hit.
    + assert (k <> t) as Hkt.
      { intros ->. apply Hk. apply list_elem_of_fmap. now exists (t, n). }
      simpl. apply IH; [exact Hnd | exact Hin |].
      now apply restoreEntry_miss.
Qed.

Lemma restoreEntry_titles (e : string * Z) (items : list PhotoItem) :
  title <$> restoreEntry e items = title <$> items.
Proof.
  unfold restoreEntry.
  destruct (list_find _ items) as [[k it] |] eqn:Hf; [| reflexivity].
  apply list_find_Some in Hf as (Hk & _ & _).
  rewrite list_fmap_insert. apply list_insert_id.
  now rewrite list_lookup_fmap, Hk.
Qed.

(** An entry that comes after another of the same title is never the one
    [find] returns. *)
Lemma restoreEntry_later (e : string * Z) (items : list PhotoItem)
    (i j : nat) (item : PhotoItem) :
  items !! i = Some item -> (j < i)%nat ->
  (title <$> items) !! j = Some (title item) ->
  restoreEntry e items !! i = Some item.
Proof.
  intros Hi Hlt Hj. unfold restoreEntry.
  destruct (list_find _ items) as [[k it] |] eqn:Hf; [| exact Hi].
  apply list_find_Some in Hf as (Hk & Ht & Hfirst).
  rewrite list_lookup_insert_ne; [exact Hi |]. intros ->.
  rewrite list_lookup_fmap in Hj.
  destruct (items !! j) as [y |] eqn:Hy; [| discriminate].
  injection Hj as Hj. apply (Hfirst j y Hy Hlt). simpl.
  assert (it = item) as -> by congruence. congruence.
Qed.

Lemma restoreAll_later (entries : LikesObj) :
  forall (items : list PhotoItem) (i j : nat) (item : PhotoItem),
    items !! i = Some item -> (j < i)%nat ->
    (title <$> items) !! j = Some (title item) ->
    restoreAll entries items !! i = Some item.
Proof.
  induction entries as [| e es IH]; intros items i j item Hi Hlt Hj; [exact Hi |].
  simpl. apply (IH _ i j item).
  - now apply (restoreEntry_later e items i j item).
  - exact Hlt.
  - now rewrite restoreEntry_titles.
Qed.

(** C4, as the code has it.  After a page load, the first photo entry that
    carries a saved title displays the saved count, its like text being
    [`${count} likes`]; an entry that comes after another of the same title
    is left as the markup has it.  So when the titles of the markup are
    distinct, every entry with a saved title displays the saved count.
    The saved map is an object (each title once) and the count is in the
    range where JavaScript numbers are exact. *)
Theorem reload_restores_first_entry
    (markup : list PhotoItem) (phs : list Placeholder) (st : Storage)
    (o : LikesObj) (i : nat) (item : PhotoItem) :
  photoLikes_key st = Some o ->
  NoDup o.*1 ->
  markup !! i = Some item ->
  ((forall j y, markup !! j = Some y -> (j < i)%nat -> title y <> title item) ->
   forall n, (title item, n) ∈ o -> JS.exactInt n ->
     exists item',
       photoItems (reload markup phs st) !! i = Some item' /\
       title item' = title item /\
       likesText item' = likesLabel n /\
       displayedLikes item' = n) /\
  ((exists j y, (j < i)%nat /\ markup !! j = Some y /\ title y = title item) ->
   photoItems (reload markup phs st) !! i = Some item) /\
  (NoDup (title <$> markup) ->
   forall n, (title item, n) ∈ o -> JS.exactInt n ->
     exists item',
       photoItems (reload markup phs st) !! i = Some item' /\
       likesText item' = likesLabel n /\
       displayedLikes item' = n).
Proof.
  intros Hst Hnd Hi.
  assert (photoItems (reload markup phs st) = restoreAll o markup) as Hre
    by (unfold reload, loadSavedLikes, savedLikes; simpl; now rewrite Hst).
  assert ((forall j y, markup !! j = Some y -> (j < i)%nat -> title y <> title item) ->
          forall n, (title item, n) ∈ o -> JS.exactInt n ->
            exists item',
              photoItems (reload markup phs st) !! i = Some item' /\
              title item' = title item /\
              likesText item' = likesLabel n /\
              displayedLikes item' = n) as Hfirst.
  { intros Hfirst n Hin _.
    assert (findTitle (title item) markup = Some (i, item)) as Hf.
    { apply list_find_Some. split; [exact Hi |]. split; [reflexivity |]. exact Hfirst. }
    pose proof (restoreAll_present _ n o markup i item Hnd Hin Hf) as Hr.
    apply list_find_Some in Hr as (Hr & _ & _).
    exists (setLikesText (likesLabel n) item). rewrite Hre.
    split; [exact Hr |]. split; [reflexivity |]. split; [reflexivity |].
    unfold displayedLikes, likesLabel. simpl.
    now rewrite parseInt_numberToString, orZero_Some. }
  split; [exact Hfirst |]. split.
  - intros (j & y & Hlt & Hj & Ht). rewrite Hre.
    apply (restoreAll_later o markup i j item Hi Hlt).
    rewrite list_lookup_fmap, Hj. simpl. now rewrite Ht.
  - intros Hnt n Hin Hn.
    assert (forall j y, markup !! j = Some y -> (j < i)%nat -> title y <> title item)
      as Huniq.
    { intros j y Hj Hlt Heq.
      assert (j = i); [| lia].
      apply (NoDup_lookup _ j i (title item) Hnt); rewrite list_lookup_fmap.
      - rewrite Hj. simpl. now rewrite Heq.
      - now rewrite Hi. }
    destruct (Hfirst Huniq n Hin Hn) as (item' & Hl & _ & Htx & Hd).
    exists item'. split; [exact Hl |]. split; [exact Htx | exact Hd].
Qed.

Lemma reload_restores_first_entry_witness :
  exists item',
    photoItems (reload [portraitItem; landscapeItem] []
                  (mkStorage None (Some [("Dunes"%string, 7); ("Sunset"%string, 4)])))
      !! 0%nat = Some item' /\
    likesText item' = "4 likes"%string /\
    displayedLikes item' = 4.
Proof.
  destruct (reload_restores_first_entry [portraitItem; landscapeItem] []
              (mkStorage None (Some [("Dunes"%string, 7); ("Sunset"%string, 4)]))
              [("Dunes"%string, 7); ("Sunset"%string, 4)] 0 portraitItem)
    as (Hfirst & _ & _).
  - reflexivity.
  - apply (bool_decide_unpack _). vm_compute. reflexivity.
  - reflexivity.
  - assert (forall j y, [portraitItem; landscapeItem] !! j = Some y ->
                        (j < 0)%nat -> title y <> title portraitItem) as H0
      by (intros j y _ Hj; lia).
    destruct (Hfirst H0 4) as (item' & Hl & _ & Ht & Hd).
    + apply (bool_decide_unpack _). vm_compute. reflexivity.
    + unfold JS.exactInt. vm_compute. split; discriminate.
    + exists item'. split; [exact Hl |]. split; [exact Ht | exact Hd].
Defined.

Lemma objSet_elem (key : string) (v : Z) (o : LikesObj) :
  key <> "__proto__"%string -> (key, v) ∈ objSet key v o.
Proof.
  intros Hp. destruct (objSet_shape key v o) as [(H & _) | (l1 & l2 & -> & _)];
    [contradiction |].
  apply elem_of_app. right. apply elem_of_cons. now left.
Qed.

(** Store, then load: a like on the first entry of its title is displayed
    again after the next page load of the same markup.  The title is not
    [__proto__] and the count stays where JavaScript numbers are exact. *)
Lemma like_then_reload (g : Page) (phs : list Placeholder) (i : nat) (item : PhotoItem) :
  photoItems g !! i = Some item ->
  NoDup (savedLikes (storage g)).*1 ->
  (forall j y, photoItems g !! j = Some y -> (j < i)%nat -> title y <> title item) ->
  title item <> "__proto__"%string ->
  JS.exactInt (displayedLikes item) ->
  JS.exactInt (displayedLikes item + 1) ->
  exists item',
    photoItems (reload (photoItems g) phs (storage (handleLike i g))) !! i = Some item' /\
    likesText item' = likesLabel (displayedLikes item + 1) /\
    displayedLikes item' = displayedLikes item + 1.
Proof.
  intros Hi Hnd Hfirst Hp _ _.
  assert (findTitle (title item) (photoItems g) = Some (i, item)) as Hf.
  { apply list_find_Some. split; [exact Hi |]. split; [reflexivity | exact Hfirst]. }
  pose proof (restoreAll_present (title item) (displayedLikes item + 1)
                (objSet (title item) (displayedLikes item + 1) (savedLikes (storage g)))
                (photoItems g) i item (objSet_NoDup _ _ _ Hnd)
                (objSet_elem _ _ _ Hp) Hf)
    as Hr.
  apply list_find_Some in Hr as (Hr & _ & _).
  eexists. split; [| split].
  - unfold reload, loadSavedLikes, handleLike. rewrite Hi. simpl. exact Hr.
  - reflexivity.
  - unfold displayedLikes, likesLabel. simpl.
    now rewrite parseInt_numberToString, orZero_Some.
Qed.

(** Two entries of the markup with one title. *)
Definition sunsetAgain : PhotoItem :=
  {| category := Some "landscape"%string; classList := ["photo-item"%string];
     animation := ""; title := "Sunset"; likesText := "0 likes";
     likeAnimation := "" |}.

(** C4 fails as stated: the second "Sunset" has its title in the saved
    map, and after the page load it still displays the markup's 0, not the
    saved 4. *)
Lemma reload_duplicate_title_keeps_markup :
  let st := mkStorage None (Some [("Sunset"%string, 4)]) in
  exists item',
    photoItems (reload [portraitItem; sunsetAgain] [] st) !! 1%nat = Some item' /\
    objGet (title item') (savedLikes st) = Some 4 /\
    displayedLikes item' = 0 /\
    displayedLikes item' <> 4.
Proof.
  exists sunsetAgain. split; [reflexivity |]. split; [reflexivity |].
  split; [reflexivity | discriminate].
Qed.

End Restore.

(** ** Theme *)

Section Theme.

Import ThemeManager.

Lemma applyTheme_persists (theme : string) (s : State) :
  theme_key (storage (applyTheme theme s)) = Some theme /\
  dataTheme (applyTheme theme s) = Some theme.
Proof. split; reflexivity. Qed.

(** The theme [new ThemeManager()] starts from. *)
Definition startTheme (st : Storage) : string :=
  match theme_key st with
  | Some v => if String.eqb v "" then "light" else v
  | None => "light"
  end.

Lemma constructor_theme (env : Env) (icon : string) (st : Storage) :
  let s := constructor env (initial icon st) in
  currentTheme s = startTheme st /\
  dataTheme s = Some (startTheme st) /\
  theme_key (storage s) = Some (startTheme st).
Proof.
  unfold constructor, startTheme, truthy. simpl.
  destruct (theme_key st) as [v |]; [| repeat split].
  destruct (String.eqb v ""); repeat split.
Qed.

(** C5, as the code has it.  The theme applied at initialization is the
    persisted value when one is stored and not empty, and ["light"]
    otherwise; what the system prefers plays no part. *)
Theorem constructor_applies_saved_or_light
    (env : Env) (icon : string) (st : Storage) :
  let s := constructor env (initial icon st) in
  (forall v, theme_key st = Some v -> v <> ""%string -> dataTheme s = Some v) /\
  (theme_key st = None \/ theme_key st = Some ""%string ->
   dataTheme s = Some "light"%string) /\
  dataTheme s = dataTheme (constructor (mkEnv None) (initial icon st)).
Proof.
  destruct (constructor_theme env icon st) as (_ & Hd & _).
  destruct (constructor_theme (mkEnv None) icon st) as (_ & Hd' & _).
  cbv zeta in *. rewrite Hd, Hd'. unfold startTheme.
  split; [| split; [| reflexivity]].
  - intros v -> Hv. apply String.eqb_neq in Hv. now rewrite Hv.
  - intros [-> | ->]; reflexivity.
Qed.

Lemma constructor_applies_saved_or_light_witness :
  dataTheme (constructor (mkEnv (Some false))
               (initial moon (mkStorage (Some "dark"%string) None)))
  = Some "dark"%string.
Proof.
  destruct (constructor_applies_saved_or_light (mkEnv (Some false)) moon
              (mkStorage (Some "dark"%string) None)) as (Hsaved & _ & _).
  apply Hsaved.
  - reflexivity.
  - discriminate.
Defined.

(** C5 fails as stated: nothing is persisted, the system prefers dark, and
    the theme applied at initialization is ["light"]. *)
Lemma constructor_ignores_system_preference :
  let env := mkEnv (Some true) in
  let st := mkStorage None None in
  theme_key st = None /\
  prefersDark env = Some true /\
  dataTheme (constructor env (initial moon st)) = Some "light"%string /\
  dataTheme (constructor env (initial moon st)) <> Some "dark"%string.
Proof. repeat split. discriminate. Qed.

(** C6. From ["light"], and from ["dark"], two toggles bring back the theme:
    the field, the document attribute and the persisted flag. *)
Theorem toggleTheme_involution (s : State) :
  currentTheme s = "light"%string \/ currentTheme s = "dark"%string ->
  currentTheme (toggleTheme (toggleTheme s)) = currentTheme s /\
  dataTheme (toggleTheme (toggleTheme s)) = Some (currentTheme s) /\
  theme_key (storage (toggleTheme (toggleTheme s))) = Some (currentTheme s) /\
  currentTheme (toggleTheme s) <> currentTheme s.
Proof.
  intros [H | H]; unfold toggleTheme, applyTheme, setCurrentTheme; simpl;
    rewrite H; simpl; repeat split; discriminate.
Qed.

Lemma toggleTheme_involution_witness :
  let s := constructor (mkEnv (Some true)) (initial moon (mkStorage None None)) in
  currentTheme s = "light"%string /\
  currentTheme (toggleTheme s) = "dark"%string /\
  currentTheme (toggleTheme (toggleTheme s)) = "light"%string.
Proof.
  split; [reflexivity |]. split; [reflexivity |].
  apply (toggleTheme_involution
           (constructor (mkEnv (Some true)) (initial moon (mkStorage None None)))).
  left. reflexivity.
Defined.

(** The flag under ['theme'] is a non-empty string. *)
Definition persisted (s : State) : Prop :=
  truthy (theme_key (storage s)) = true.

Lemma constructor_persisted (env : Env) (icon : string) (st : Storage) :
  persisted (constructor env (initial icon st)).
Proof.
  unfold persisted, constructor, truthy. simpl.
  destruct (theme_key st) as [v |]; [| reflexivity].
  destruct (String.eqb v "") eqn:Hv; simpl; [reflexivity | now rewrite Hv].
Qed.

Lemma onSystemChange_persisted (m : bool) (s : State) :
  persisted s -> onSystemChange m s = s.
Proof. unfold persisted, onSystemChange. now intros ->. Qed.

Lemma step_persisted (e : Event) (s : State) :
  persisted s -> persisted (step e s).
Proof.
  intros Hp. destruct e as [| m | | o]; simpl.
  - unfold persisted, toggleTheme. simpl.
    now destruct (String.eqb (currentTheme s) "dark").
  - destruct (mediaListener s); [| exact Hp].
    now rewrite onSystemChange_persisted.
  - now destruct (0 <? pendingClears s)%nat.
  - exact Hp.
Qed.

Lemma run_persisted (es : list Event) :
  forall s, persisted s -> persisted (run es s).
Proof.
  induction es as [| e es IH]; intros s Hp; [exact Hp |].
  simpl. apply IH. now apply step_persisted.
Qed.

(** C9. Once the manager is constructed, a change of the system preference
    changes nothing: every apply has stored the flag, so the listener's
    guard is false in every state reached by toggles, timers, system
    changes and writes of the other storage key. *)
Theorem system_change_never_applies
    (env : Env) (icon : string) (st : Storage) (es : list Event) (m : bool) :
  let s := run es (constructor env (initial icon st)) in
  truthy (theme_key (storage s)) = true /\
  step (SystemChange m) s = s.
Proof.
  cbv zeta.
  pose proof (run_persisted es _ (constructor_persisted env icon st)) as Hp.
  split; [exact Hp |]. simpl.
  destruct (mediaListener _); [| reflexivity].
  now apply onSystemChange_persisted.
Qed.

End Theme.

(** ** Gallery: uploads *)

Section Uploads.

Import GalleryManager.

(** The condition of the specification: the type is one of the five
    accepted, the size is at most 10 MiB. *)
Definition validFile (file : File) : Prop :=
  file_type file ∈ allowedTypes /\ file_size file <= 10 * 1024 * 1024.

Lemma includes_elem_of (l : list string) (x : string) :
  includes l x = true <-> x ∈ l.
Proof.
  unfold includes. rewrite existsb_exists, list_elem_of_In. split.
  - intros (y & Hy & Heq). apply String.eqb_eq in Heq. now subst.
  - intros Hx. exists x. split; [exact Hx | apply String.eqb_refl].
Qed.

Lemma validateImageFile_valid (file : File) :
  validFile file -> validateImageFile file = Normal true.
Proof.
  intros [Ht Hs]. unfold validateImageFile.
  apply includes_elem_of in Ht. rewrite Ht. simpl.
  destruct (file_size file >? maxSize) eqn:Hgt; [| reflexivity].
  rewrite Z.gtb_ltb in Hgt. apply Z.ltb_lt in Hgt. unfold maxSize in Hgt. lia.
Qed.

Lemma validateImageFile_type (file : File) :
  file_type file ∉ allowedTypes ->
  validateImageFile file = Throw invalidTypeMessage.
Proof.
  intros Ht. unfold validateImageFile.
  destruct (includes allowedTypes (file_type file)) eqn:Hi; [| reflexivity].
  apply includes_elem_of in Hi. contradiction.
Qed.

Lemma validateImageFile_size (file : File) :
  file_type file ∈ allowedTypes -> file_size file > maxSize ->
  validateImageFile file = Throw tooLargeMessage.
Proof.
  intros Ht Hs. unfold validateImageFile.
  apply includes_elem_of in Ht. rewrite Ht. simpl.
  destruct (file_size file >? maxSize) eqn:Hgt; [reflexivity |].
  rewrite Z.gtb_ltb in Hgt. apply Z.ltb_ge in Hgt. lia.
Qed.

(** Identities of created elements are below [nextNode]. *)
Definition wellFormed (g : Page) : Prop :=
  Forall (fun c => (fst c < nextNode g)%nat) (body g).

Lemma constructor_wellFormed markup phs st : wellFormed (constructor markup phs st).
Proof. apply Forall_nil_2. Qed.

Lemma appendChild_wellFormed (n : BodyNode) (g : Page) :
  wellFormed g -> wellFormed (appendChild n g).
Proof.
  unfold wellFormed, appendChild. simpl. intros Hwf. apply Forall_app. split.
  - eapply Forall_impl; [exact Hwf |]. simpl. intros c Hc. lia.
  - apply Forall_singleton. simpl. lia.
Qed.

Lemma showError_wellFormed (message : string) (g : Page) :
  wellFormed g -> wellFormed (showError message g).
Proof. intros Hwf. exact (appendChild_wellFormed _ g Hwf). Qed.

Lemma filter_fresh (g : Page) :
  wellFormed g -> filter (fun c => fst c <> nextNode g) (body g) = body g.
Proof.
  unfold wellFormed. induction (body g) as [| c l IH]; intros Hwf; [reflexivity |].
  apply Forall_cons in Hwf as [Hc Hl]. rewrite filter_cons.
  destruct (decide (fst c <> nextNode g)) as [_ | Heq]; [now rewrite IH | lia].
Qed.

Lemma isChild_appendChild (n : BodyNode) (g : Page) :
  isChild (nextNode g) (appendChild n g) = true.
Proof.
  unfold isChild, appendChild. simpl. rewrite existsb_app. simpl.
  now rewrite Nat.eqb_refl, orb_true_r.
Qed.

(** Appending an element and removing it again restores body. *)
Lemma removeChild_appendChild (n : BodyNode) (g : Page) :
  wellFormed g ->
  exists g2, removeChild (nextNode g) (appendChild n g) = Normal g2 /\
             body g2 = body g /\ placeholders g2 = placeholders g /\
             photoItems g2 = photoItems g /\ storage g2 = storage g /\
             timers g2 = timers g.
Proof.
  intros Hwf. unfold removeChild. rewrite isChild_appendChild.
  eexists. split; [reflexivity |]. simpl.
  rewrite filter_app, filter_fresh by exact Hwf.
  rewrite filter_cons, filter_nil.
  destruct (decide ((nextNode g, n).1 <> nextNode g)) as [Hne | _];
    [now contradiction Hne |].
  rewrite app_nil_r. now repeat split.
Qed.

Lemma errorsShown_showError (message : string) (g : Page) :
  errorsShown (showError message g) = errorsShown g ++ [message] /\
  placeholders (showError message g) = placeholders g /\
  photoItems (showError message g) = photoItems g /\
  storage (showError message g) = storage g.
Proof.
  unfold errorsShown, showError. simpl. now rewrite omap_app.
Qed.

Lemma errorsShown_input (g : Page) :
  errorsShown (appendChild FileInput g) = errorsShown g.
Proof.
  unfold errorsShown, appendChild. simpl. rewrite omap_app. simpl.
  now rewrite app_nil_r.
Qed.

(** A rejected upload: the notice is shown, nothing else the page keeps
    about photos changes. *)
Lemma handlePhotoUpload_rejected (ph : nat) (pick : PickerEvent)
    (read : ReadOutcome) (g : Page) (message : string) :
  pickedFile pick = Throw message ->
  let g' := handlePhotoUpload ph pick read g in
  placeholders g' = placeholders g /\
  errorsShown g' = errorsShown g ++ [message] /\
  photoItems g' = photoItems g /\ storage g' = storage g.
Proof.
  intros Hp. cbv zeta. unfold handlePhotoUpload. rewrite Hp.
  destruct (errorsShown_showError message (appendChild FileInput g))
    as (He & Hph & Hit & Hst).
  rewrite He, Hph, Hit, Hst, errorsShown_input. now repeat split.
Qed.

Lemma handlePhotoUpload_accepted (ph : nat) (pick : PickerEvent)
    (read : ReadOutcome) (g : Page) (file : File) :
  wellFormed g ->
  pickedFile pick = Normal file ->
  let g' := handlePhotoUpload ph pick read g in
  photoItems g' = photoItems g /\ storage g' = storage g /\
  match read with
  | Loaded result =>
      (forall p, placeholders g !! ph = Some p ->
         exists p', placeholders g' !! ph = Some p' /\
                    backgroundImage p' = "url(" +:+ result +:+ ")") /\
      errorsShown g' = errorsShown g
  | ReadFailed =>
      placeholders g' = placeholders g /\
      errorsShown g' = errorsShown g ++ ["Failed to read file. Please try again."%string]
  end.
Proof.
  intros Hwf Hp. cbv zeta. unfold handlePhotoUpload. rewrite Hp.
  destruct (removeChild_appendChild FileInput g Hwf)
    as (g2 & -> & Hb & Hph & Hit & Hst & _).
  destruct read as [result |]; simpl.
  - split; [exact Hit |]. split; [exact Hst |]. split.
    + intros p Hpl. eexists. rewrite list_lookup_alter_eq, Hph, Hpl. simpl.
      split; reflexivity.
    + unfold errorsShown. simpl. now rewrite Hb.
  - split; [exact Hit |]. split; [exact Hst |]. split; [exact Hph |].
    unfold errorsShown. simpl. rewrite omap_app. simpl. now rewrite Hb.
Qed.

(** Uploads keep identities fresh. *)
Lemma handlePhotoUpload_wellFormed (ph : nat) (pick : PickerEvent)
    (read : ReadOutcome) (g : Page) :
  wellFormed g -> wellFormed (handlePhotoUpload ph pick read g).
Proof.
  intros Hwf. unfold handlePhotoUpload.
  destruct (pickedFile pick) as [file | message].
  - destruct (removeChild_appendChild FileInput g Hwf)
      as (g2 & Hrm & Hb & _).
    assert (wellFormed g2) as Hwf2.
    { unfold removeChild in Hrm. rewrite isChild_appendChild in Hrm.
      injection Hrm as <-. unfold wellFormed in *. simpl.
      rewrite filter_app, filter_fresh by exact Hwf.
      apply Forall_app. split.
      - eapply Forall_impl; [exact Hwf |]. simpl. intros c Hc. lia.
      - rewrite filter_cons, filter_nil.
        destruct (decide ((nextNode g, FileInput).1 <> nextNode g));
          [now apply Forall_singleton | apply Forall_nil_2]. }
    rewrite Hrm. destruct read as [result |].
    + exact Hwf2.
    + exact (showError_wellFormed _ (withLoadingDisplay "block" g2) Hwf2).
  - apply showError_wellFormed. now apply appendChild_wellFormed.
Qed.

(** C1, as the code has it.  A file of an accepted type and of at most
    10 MiB passes validation; the placeholder then gets the image once the
    file has been read, and a notice when the read fails.  A file of another
    type, a larger file, an empty selection and a cancelled picker each show
    their own notice and leave placeholders, photo entries and storage as
    they were. *)
Theorem handlePhotoUpload_outcome
    (ph : nat) (pick : PickerEvent) (read : ReadOutcome) (g : Page) :
  wellFormed g ->
  let g' := handlePhotoUpload ph pick read g in
  photoItems g' = photoItems g /\ storage g' = storage g /\
  match pick with
  | Change (file :: _) =>
      (validFile file ->
       match read with
       | Loaded result =>
           (forall p, placeholders g !! ph = Some p ->
              exists p', placeholders g' !! ph = Some p' /\
                         backgroundImage p' = "url(" +:+ result +:+ ")") /\
           errorsShown g' = errorsShown g
       | ReadFailed =>
           placeholders g' = placeholders g /\
           errorsShown g' = errorsShown g ++ ["Failed to read file. Please try again."%string]
       end) /\
      (file_type file ∉ allowedTypes ->
       placeholders g' = placeholders g /\
       errorsShown g' = errorsShown g ++ [invalidTypeMessage]) /\
      (file_type file ∈ allowedTypes -> file_size file > 10 * 1024 * 1024 ->
       placeholders g' = placeholders g /\
       errorsShown g' = errorsShown g ++ [tooLargeMessage])
  | Change [] =>
      placeholders g' = placeholders g /\
      errorsShown g' = errorsShown g ++ ["No file selected"%string]
  | Cancel =>
      placeholders g' = placeholders g /\
      errorsShown g' = errorsShown g ++ ["Upload cancelled"%string]
  end.
Proof.
  intros Hwf. cbv zeta.
  assert (forall message, pickedFile pick = Throw message ->
            photoItems (handlePhotoUpload ph pick read g) = photoItems g /\
            storage (handlePhotoUpload ph pick read g) = storage g /\
            placeholders (handlePhotoUpload ph pick read g) = placeholders g /\
            errorsShown (handlePhotoUpload ph pick read g)
            = errorsShown g ++ [message]) as Hrej.
  { intros message Hm.
    destruct (handlePhotoUpload_rejected ph pick read g message Hm) as (? & ? & ? & ?).
    now repeat split. }
  assert (photoItems (handlePhotoUpload ph pick read g) = photoItems g /\
          storage (handlePhotoUpload ph pick read g) = storage g) as [Hit Hst].
  { destruct (pickedFile pick) as [file | message] eqn:Hp.
    - destruct (handlePhotoUpload_accepted ph pick read g file Hwf Hp) as (? & ? & _).
      now split.
    - destruct (Hrej message eq_refl) as (? & ? & _). now split. }
  split; [exact Hit |]. split; [exact Hst |].
  destruct pick as [[| file rest] |].
  - destruct (Hrej "No file selected"%string eq_refl) as (_ & _ & ? & ?). now split.
  - split; [| split].
    + intros Hv.
      assert (pickedFile (Change (file :: rest)) = Normal file) as Hp
        by (simpl; now rewrite validateImageFile_valid).
      destruct (handlePhotoUpload_accepted ph _ read g file Hwf Hp) as (_ & _ & H).
      exact H.
    + intros Ht.
      assert (pickedFile (Change (file :: rest)) = Throw invalidTypeMessage) as Hp
        by (simpl; now rewrite validateImageFile_type).
      destruct (Hrej _ Hp) as (_ & _ & ? & ?). now split.
    + intros Ht Hs.
      assert (pickedFile (Change (file :: rest)) = Throw tooLargeMessage) as Hp
        by (simpl; rewrite validateImageFile_size; [reflexivity | exact Ht |];
            unfold maxSize; lia).
      destruct (Hrej _ Hp) as (_ & _ & ? & ?). now split.
  - destruct (Hrej "Upload cancelled"%string eq_refl) as (_ & _ & ? & ?). now split.
Qed.

Definition emptyPlaceholder : Placeholder :=
  {| backgroundImage := ""; backgroundSize := ""; backgroundPosition := "";
     innerHTML := "Click to upload"; color := ""; pulse := "" |}.

Definition onePlaceholder : Page :=
  constructor [portraitItem] [emptyPlaceholder] (mkStorage None None).

(** A PNG of exactly 10 MiB. *)
Definition png10MiB : File :=
  {| file_name := "dunes.png"; file_type := "image/png"; file_size := 10485760 |}.

Lemma png10MiB_valid : validFile png10MiB.
Proof.
  split; [apply (bool_decide_unpack _); vm_compute; reflexivity |].
  vm_compute. discriminate.
Qed.

Lemma handlePhotoUpload_outcome_witness :
  exists p',
    placeholders (handlePhotoUpload 0 (Change [png10MiB]) (Loaded "data:image/png;base64,AAAA")
                    onePlaceholder) !! 0%nat = Some p' /\
    backgroundImage p' = "url(data:image/png;base64,AAAA)"%string.
Proof.
  destruct (handlePhotoUpload_outcome 0 (Change [png10MiB])
              (Loaded "data:image/png;base64,AAAA") onePlaceholder
              (constructor_wellFormed _ _ _)) as (_ & _ & Hvalid & _ & _).
  destruct (Hvalid png10MiB_valid) as [Hset _].
  destruct (Hset emptyPlaceholder eq_refl) as (p' & Hp' & Hb).
  exists p'. split; [exact Hp' | exact Hb].
Defined.

(** C1 fails as stated: a valid file whose read fails sets no image
    source; the placeholder is as before and the read notice is shown. *)
Lemma valid_file_read_failure_sets_no_image :
  let g' := handlePhotoUpload 0 (Change [png10MiB]) ReadFailed onePlaceholder in
  validFile png10MiB /\
  placeholders g' = [emptyPlaceholder] /\
  backgroundImage <$> placeholders g' = [""%string] /\
  errorsShown g' = ["Failed to read file. Please try again."%string].
Proof.
  split; [exact png10MiB_valid |]. repeat split.
Qed.

(** The specification's example: a 15 MB PNG is rejected with the size
    notice. *)
Example upload_15MB_png :
  let g' := handlePhotoUpload 0
              (Change [mkFile "big.png" "image/png" 15000000]) (Loaded "data:")
              onePlaceholder in
  placeholders g' = [emptyPlaceholder] /\ errorsShown g' = [tooLargeMessage].
Proof. split; reflexivity. Qed.

(** On the rejecting path the hidden file input is not removed from body:
    [removeChild] is only reached when the promise resolves. *)
Lemma rejected_upload_keeps_input (ph : nat) (pick : PickerEvent)
    (read : ReadOutcome) (g : Page) (message : string) :
  pickedFile pick = Throw message ->
  body (handlePhotoUpload ph pick read g)
  = body g ++ [(nextNode g, FileInput);
               (S (nextNode g), ErrorMessage message "slideInRight 0.3s ease")].
Proof.
  intros Hp. unfold handlePhotoUpload. rewrite Hp. simpl.
  now rewrite <- app_assoc.
Qed.

End Uploads.

(** ** Gallery: the photo overlay *)

Section Overlay.

Import GalleryManager.

Lemma isChild_setFade (id modal : nat) (a : string) (g : Page) :
  isChild id (setFade modal a g) = isChild id g.
Proof.
  unfold isChild, setFade. simpl. induction (body g) as [| [k n] l IH]; [reflexivity |].
  rewrite fmap_cons. cbn [existsb]. rewrite IH. f_equal.
  destruct n as [| src fade | m s]; try reflexivity.
  now destruct (Nat.eqb k modal).
Qed.

Lemma closeModal_effect (modal : nat) (g : Page) :
  timers (closeModal modal g) = timers g ++ [RemoveModal modal] /\
  console (closeModal modal g) = console g /\
  forall id, isChild id (closeModal modal g) = isChild id g.
Proof.
  split; [reflexivity |]. split; [reflexivity |].
  intros id. unfold closeModal, setTimeout.
  change (isChild id (withTimers ?t ?h)) with (isChild id h).
  apply isChild_setFade.
Qed.

Lemma isChild_removed (id : nat) (l : list (nat * BodyNode)) :
  existsb (fun c => Nat.eqb (fst c) id) (filter (fun c => fst c <> id) l) = false.
Proof.
  induction l as [| c l IH]; [reflexivity |]. rewrite filter_cons.
  destruct (decide (fst c <> id)) as [Hne | _]; [| exact IH].
  simpl. rewrite IH, orb_false_r. now apply Nat.eqb_neq.
Qed.

(** Whatever the state, once the removal timer of an overlay has fired the
    overlay is not in the document. *)
Lemma fire_RemoveModal_gone (modal : nat) (g : Page) :
  isChild modal (fire (RemoveModal modal) g) = false.
Proof.
  unfold fire, removeChild. destruct (isChild modal g) eqn:Hc; simpl.
  - unfold isChild. simpl. apply isChild_removed.
  - exact Hc.
Qed.

(** A second removal timer for the same overlay finds it gone. *)
Lemma fire_RemoveModal_again (modal : nat) (g : Page) :
  isChild modal g = true ->
  console (fire (RemoveModal modal) (fire (RemoveModal modal) g))
  = console g ++ ["Unhandled error: NotFoundError"%string].
Proof.
  intros Hchild.
  pose proof (fire_RemoveModal_gone modal g) as Hgone.
  assert (console (fire (RemoveModal modal) g) = console g) as Hc1.
  { unfold fire, removeChild. now rewrite Hchild. }
  remember (fire (RemoveModal modal) g) as g' eqn:Hg'.
  change (fire (RemoveModal modal) g') with (uncaught (removeChild modal g') g').
  unfold removeChild. rewrite Hgone. cbn [uncaught]. simpl. now rewrite Hc1.
Qed.

(** The three ways to close reach [closeModal]: the event schedules the
    overlay's removal. *)
Lemma close_paths_schedule_removal (g : Page) (src : string) (e : ModalEvent) :
  e = Click CloseBtn \/ e = Click Backdrop \/
  (exists t, e = KeyDown "Escape" t) ->
  let modal := nextNode g in
  RemoveModal modal ∈ timers (dispatchEvent modal e (createPhotoModal src g)) /\
  isChild modal (fire (RemoveModal modal)
                   (dispatchEvent modal e (createPhotoModal src g))) = false.
Proof.
  intros He. cbv zeta. split; [| apply fire_RemoveModal_gone].
  unfold dispatchEvent, createPhotoModal. rewrite isChild_appendChild.
  destruct He as [-> | [-> | [t ->]]]; [| | destruct t]; simpl;
    rewrite ?elem_of_app, ?elem_of_cons; tauto.
Qed.

(** C7, where the code departs from it.  A click on the close control runs
    [closeModal] on the button and, bubbling, on the backdrop: two removals
    are scheduled for the one overlay, and the second [removeChild] throws. *)
Theorem close_button_click_closes_twice (g : Page) (src : string) :
  let modal := nextNode g in
  let g1 := dispatchEvent modal (Click CloseBtn) (createPhotoModal src g) in
  timers g1 = timers g ++ [RemoveModal modal; RemoveModal modal] /\
  isChild modal (fire (RemoveModal modal) g1) = false /\
  console (fire (RemoveModal modal) (fire (RemoveModal modal) g1))
  = console g ++ ["Unhandled error: NotFoundError"%string].
Proof.
  cbv zeta. split; [| split; [apply fire_RemoveModal_gone |]].
  - unfold dispatchEvent, createPhotoModal. rewrite isChild_appendChild. simpl.
    now rewrite <- app_assoc.
  - set (g1 := dispatchEvent _ _ _).
    assert (console g1 = console g) as Hc.
    { unfold g1, dispatchEvent, createPhotoModal. rewrite isChild_appendChild.
      reflexivity. }
    assert (isChild (nextNode g) g1 = true) as Hchild.
    { unfold g1, dispatchEvent, createPhotoModal. rewrite isChild_appendChild.
      simpl. rewrite !(proj2 (proj2 (closeModal_effect _ _))).
      apply isChild_appendChild. }
    rewrite fire_RemoveModal_again by exact Hchild. now rewrite Hc.
Qed.

(** The same run on a page with nothing else pending: both timers fire, the
    overlay is gone and the error is logged. *)
Example close_button_run :
  let g := ticks 2 (dispatchEvent 0 (Click CloseBtn)
                      (createPhotoModal "url(data:image/png;base64,AAAA)" onePlaceholder)) in
  body g = [] /\ timers g = [] /\
  console g = ["Unhandled error: NotFoundError"%string].
Proof. repeat split. Qed.

(** A click on the backdrop itself and the Escape key run [closeModal]
    once. *)
Example backdrop_click_run :
  let g1 := dispatchEvent 0 (Click Backdrop) (createPhotoModal "url(x)" onePlaceholder) in
  timers g1 = [RemoveModal 0] /\ body (tick g1) = [] /\ console (tick g1) = [].
Proof. repeat split. Qed.

Example escape_key_run :
  let g1 := dispatchEvent 0 (KeyDown "Escape" CloseBtn)
              (createPhotoModal "url(x)" onePlaceholder) in
  timers g1 = [RemoveModal 0] /\ body (tick g1) = [] /\ console (tick g1) = [].
Proof. repeat split. Qed.

End Overlay.

(** ** Rounding to binary64 *)

Section Rounding.

Import Binary64.

Local Open Scope Q_scope.

Lemma pow2_pos (e : Z) : 0 < pow2 e.
Proof. apply Qpower_0_lt. reflexivity. Qed.

Lemma pow2_plus (a b : Z) : pow2 (a + b) == pow2 a * pow2 b.
Proof. apply Qpower_plus. discriminate. Qed.

Lemma pow2_le (a b : Z) : (a <= b)%Z -> pow2 a <= pow2 b.
Proof. intros H. apply Qpower_le_compat_l; [exact H | discriminate]. Qed.

Lemma pow2_le_inv (a b : Z) : pow2 a <= pow2 b -> (a <= b)%Z.
Proof. intros H. apply (Qpower_le_compat_l_inv 2); [exact H | reflexivity]. Qed.

Lemma pow2_inject (a : Z) : (0 <= a)%Z -> pow2 a == inject_Z (2 ^ a).
Proof. intros H. unfold pow2. now rewrite Zpower_Qpower. Qed.

Lemma log2_bounds (n : Z) :
  (0 < n)%Z -> pow2 (Z.log2 n) <= inject_Z n /\ inject_Z n < pow2 (Z.log2 n + 1).
Proof.
  intros Hn. pose proof (Z.log2_spec n Hn) as [Hlo Hhi].
  pose proof (Z.log2_nonneg n) as H0.
  rewrite !pow2_inject by lia. rewrite <- Zle_Qle, <- Zlt_Qlt.
  replace (Z.log2 n + 1)%Z with (Z.succ (Z.log2 n)) by lia. split; assumption.
Qed.

(** [ilog2] finds the binade of a positive rational. *)
Lemma ilog2_spec (x : Q) :
  0 < x -> pow2 (ilog2 x) <= x /\ x < pow2 (ilog2 x + 1).
Proof.
  intros Hx. destruct x as [n d].
  assert (0 < n)%Z as Hn by (unfold Qlt in Hx; simpl in Hx; lia).
  destruct (log2_bounds n Hn) as [Hn1 Hn2].
  destruct (log2_bounds (Zpos d) eq_refl) as [Hd1 Hd2].
  set (a := Z.log2 n) in *. set (b := Z.log2 (Zpos d)) in *.
  assert (n # d == inject_Z n / inject_Z (Zpos d)) as Hq by apply Qmake_Qdiv.
  assert (0 < inject_Z (Zpos d)) as HD by reflexivity.
  assert ((n # d) * inject_Z (Zpos d) == inject_Z n) as Hmul
    by (rewrite Hq; field; discriminate).
  assert (pow2 (a - b - 1) < n # d) as Hlo.
  { apply (Qmult_lt_r _ _ (inject_Z (Zpos d)) HD). rewrite Hmul.
    apply Qlt_le_trans with (pow2 (a - b - 1) * pow2 (b + 1)).
    - apply Qmult_lt_l; [apply pow2_pos | exact Hd2].
    - rewrite <- pow2_plus. now replace (a - b - 1 + (b + 1))%Z with a by lia. }
  assert (n # d < pow2 (a - b + 1)) as Hhi.
  { apply (Qmult_lt_r _ _ (inject_Z (Zpos d)) HD). rewrite Hmul.
    apply Qlt_le_trans with (pow2 (a - b + 1) * pow2 b).
    - rewrite <- pow2_plus. now replace (a - b + 1 + b)%Z with (a + 1)%Z by lia.
    - apply Qmult_le_l; [apply pow2_pos | exact Hd1]. }
  unfold ilog2. simpl Qnum. simpl Qden. fold a b.
  destruct (Qle_bool (pow2 (a - b)) (n # d)) eqn:Hc.
  - apply Qle_bool_iff in Hc. split; assumption.
  - assert (n # d < pow2 (a - b)) as Hlt.
    { apply Qnot_le_lt. intros H. apply Qle_bool_iff in H. congruence. }
    replace (a - b - 1 + 1)%Z with (a - b)%Z by lia.
    split; [now apply Qlt_le_weak | exact Hlt].
Qed.


(** [roundEven] is within one half of its argument. *)
Lemma roundEven_spec (y : Q) :
  inject_Z (roundEven y) - y <= 1 # 2 /\ y - inject_Z (roundEven y) <= 1 # 2.
Proof.
  unfold roundEven. pose proof (Qfloor_le y) as Hlo.
  pose proof (Qlt_floor y) as Hhi. rewrite inject_Z_plus in Hhi.
  change (inject_Z 1) with 1 in Hhi.
  destruct (Qcompare_spec (y - inject_Z (Qfloor y)) (1 # 2)) as [He | Hl | Hg].
  - destruct (Z.even (Qfloor y)); rewrite ?inject_Z_plus;
      change (inject_Z 1) with 1; split; lra.
  - split; lra.
  - rewrite inject_Z_plus. change (inject_Z 1) with 1. split; lra.
Qed.

Lemma roundEven_comp (y z : Q) : y == z -> roundEven y = roundEven z.
Proof.
  intros H. unfold roundEven. rewrite (Qfloor_comp y z H).
  assert (Qcompare (y - inject_Z (Qfloor z)) (1 # 2)
          = Qcompare (z - inject_Z (Qfloor z)) (1 # 2)) as Hc.
  { apply Qcompare_comp; [| reflexivity]. apply Qplus_comp; [exact H | reflexivity]. }
  now rewrite Hc.
Qed.

Lemma roundEven_Z (n : Z) : roundEven (inject_Z n) = n.
Proof.
  unfold roundEven. rewrite Qfloor_Z.
  destruct (Qcompare_spec (inject_Z n - inject_Z n) (1 # 2)) as [He | Hl | Hg];
    [lra | reflexivity | lra].
Qed.

Lemma roundEven_mono (y z : Q) : y <= z -> (roundEven y <= roundEven z)%Z.
Proof.
  intros Hyz. pose proof (Qfloor_resp_le y z Hyz) as Hf.
  pose proof (Qfloor_le z) as Hz. pose proof (Qlt_floor y) as Hy.
  unfold roundEven.
  destruct (Z.eq_dec (Qfloor y) (Qfloor z)) as [Heq | Hne].
  - rewrite Heq.
    destruct (Qcompare_spec (y - inject_Z (Qfloor z)) (1 # 2)) as [He | Hl | Hg];
      destruct (Qcompare_spec (z - inject_Z (Qfloor z)) (1 # 2)) as [He' | Hl' | Hg'];
      destruct (Z.even (Qfloor z)); try lia; lra.
  - assert (Qfloor y + 1 <= Qfloor z)%Z as Hlt by lia.
    destruct (Qcompare (y - inject_Z (Qfloor y)) (1 # 2));
      destruct (Qcompare (z - inject_Z (Qfloor z)) (1 # 2));
      destruct (Z.even (Qfloor y)); destruct (Z.even (Qfloor z)); lia.
Qed.

Lemma roundPos_scaled (x : Q) :
  0 < x ->
  let e := (ilog2 x - 52)%Z in
  pow2 52 <= x / pow2 e /\ x / pow2 e < pow2 53 /\ x / pow2 e * pow2 e == x.
Proof.
  intros Hx e. destruct (ilog2_spec x Hx) as [Hlo Hhi].
  pose proof (pow2_pos e) as He.
  assert (x / pow2 e * pow2 e == x) as Hmul by (field; lra).
  assert (pow2 (ilog2 x) == pow2 52 * pow2 e) as H1.
  { rewrite <- pow2_plus. unfold e. now replace (52 + (ilog2 x - 52))%Z with (ilog2 x) by lia. }
  assert (pow2 (ilog2 x + 1) == pow2 53 * pow2 e) as H2.
  { rewrite <- pow2_plus. unfold e.
    now replace (53 + (ilog2 x - 52))%Z with (ilog2 x + 1)%Z by lia. }
  split; [| split; [| exact Hmul]].
  - apply (Qmult_le_r _ _ (pow2 e) He). rewrite Hmul, <- H1. exact Hlo.
  - apply (Qmult_lt_r _ _ (pow2 e) He). rewrite Hmul, <- H2. exact Hhi.
Qed.

(** The relative error of rounding is at most the unit roundoff. *)
Lemma roundPos_bounds (x : Q) :
  0 < x -> x * (1 - unitRoundoff) <= roundPos x /\ roundPos x <= x * (1 + unitRoundoff).
Proof.
  intros Hx. destruct (roundPos_scaled x Hx) as (Hlo & _ & Hmul).
  unfold roundPos. set (e := (ilog2 x - 52)%Z) in *.
  set (y := x / pow2 e) in *.
  destruct (roundEven_spec y) as [H1 H2].
  pose proof (pow2_pos e) as He.
  set (m := inject_Z (roundEven y)) in *. set (p := pow2 e) in *.
  assert (pow2 52 == 4503599627370496) as H52 by reflexivity.
  rewrite H52 in Hlo. unfold unitRoundoff.
  assert ((m - y) * p <= (1 # 2) * p) as Ha by (apply Qmult_le_compat_r; lra).
  assert ((y - m) * p <= (1 # 2) * p) as Hb by (apply Qmult_le_compat_r; lra).
  assert (4503599627370496 * p <= y * p) as Hc by (apply Qmult_le_compat_r; lra).
  split; lra.
Qed.

Lemma Qnum_pos (x : Q) : 0 < x -> exists p, Qnum x = Zpos p.
Proof.
  intros Hx. destruct x as [[| p | p] d]; unfold Qlt in Hx; simpl in Hx; try lia.
  now exists p.
Qed.

Lemma round_roundPos (x : Q) : 0 < x -> round x == roundPos x.
Proof.
  intros Hx. destruct (Qnum_pos x Hx) as [p Hp]. unfold round. rewrite Hp.
  apply Qred_correct.
Qed.

Lemma round_bounds (x : Q) :
  0 < x -> x * (1 - unitRoundoff) <= round x /\ round x <= x * (1 + unitRoundoff).
Proof. intros Hx. rewrite round_roundPos by exact Hx. now apply roundPos_bounds. Qed.

Lemma round_pos (x : Q) : 0 < x -> 0 < round x.
Proof.
  intros Hx. destruct (round_bounds x Hx) as [Hlo _].
  apply Qlt_le_trans with (x * (1 - unitRoundoff)); [| exact Hlo].
  apply Qmult_lt_0_compat; [exact Hx | reflexivity].
Qed.


Lemma roundPos_mantissa (x : Q) :
  0 < x ->
  (2 ^ 52 <= roundEven (x / pow2 (ilog2 x - 52)) <= 2 ^ 53)%Z.
Proof.
  intros Hx. destruct (roundPos_scaled x Hx) as (Hlo & Hhi & _).
  rewrite (pow2_inject 52) in Hlo by lia. rewrite (pow2_inject 53) in Hhi by lia.
  split.
  - rewrite <- (roundEven_Z (2 ^ 52)). now apply roundEven_mono.
  - rewrite <- (roundEven_Z (2 ^ 53)). apply roundEven_mono. now apply Qlt_le_weak.
Qed.

Lemma ilog2_mono (x y : Q) : 0 < x -> x <= y -> (ilog2 x <= ilog2 y)%Z.
Proof.
  intros Hx Hxy.
  destruct (ilog2_spec x Hx) as [Hlo _].
  destruct (ilog2_spec y) as [_ Hhi]; [lra |].
  assert (pow2 (ilog2 x) < pow2 (ilog2 y + 1)) as Hlt by lra.
  apply Qpower_lt_compat_l_inv in Hlt; [lia | reflexivity].
Qed.

Lemma roundPos_mono (x y : Q) : 0 < x -> x <= y -> roundPos x <= roundPos y.
Proof.
  intros Hx Hxy. assert (0 < y) as Hy by lra.
  pose proof (ilog2_mono x y Hx Hxy) as Hi.
  destruct (roundPos_mantissa x Hx) as [_ Hmx].
  destruct (roundPos_mantissa y Hy) as [Hmy _].
  unfold roundPos.
  set (ex := (ilog2 x - 52)%Z) in *. set (ey := (ilog2 y - 52)%Z) in *.
  pose proof (pow2_pos ex) as Hpx. pose proof (pow2_pos ey) as Hpy.
  destruct (Z.eq_dec (ilog2 x) (ilog2 y)) as [Heq | Hne].
  - assert (ex = ey) as -> by (unfold ex, ey; lia).
    apply Qmult_le_compat_r; [| lra]. rewrite <- Zle_Qle.
    apply roundEven_mono. apply Qmult_le_compat_r; [exact Hxy |].
    apply Qlt_le_weak, Qinv_lt_0_compat, Hpy.
  - apply Qle_trans with (inject_Z (2 ^ 53) * pow2 ex).
    { apply Qmult_le_compat_r; [now rewrite <- Zle_Qle | lra]. }
    apply Qle_trans with (inject_Z (2 ^ 52) * pow2 ey).
    2: { apply Qmult_le_compat_r; [now rewrite <- Zle_Qle | lra]. }
    rewrite <- !pow2_inject by lia. rewrite <- !pow2_plus.
    apply pow2_le. unfold ex, ey. lia.
Qed.

(** Rounding is monotone. *)
Lemma round_mono (x y : Q) : 0 < x -> x <= y -> round x <= round y.
Proof.
  intros Hx Hxy. rewrite !round_roundPos by lra. now apply roundPos_mono.
Qed.

End Rounding.

(** ** The image optimizer *)

Section Optimizer.

Import Binary64 PerformanceManager.

Local Open Scope Q_scope.

Lemma inject_Z_pos (d : Z) : (0 < d)%Z -> 0 < inject_Z d.
Proof. intros Hd. change 0 with (inject_Z 0). now rewrite <- Zlt_Qlt. Qed.

Lemma div_bounds (m d : Q) :
  0 < m -> 0 < d ->
  0 < div m d /\ d * div m d <= m * (1 + unitRoundoff) /\ m * (1 - unitRoundoff) <= d * div m d.
Proof.
  intros Hm Hd.
  assert (0 < m / d) as Hq by (apply Qlt_shift_div_l; lra).
  assert (d * (m / d) == m) as Hmul by (field; lra).
  destruct (round_bounds (m / d) Hq) as [Hlo Hhi]. fold (div m d) in Hlo, Hhi.
  split; [now apply round_pos |].
  assert (d * (m / d * (1 - unitRoundoff)) <= d * div m d) as H1
    by (apply Qmult_le_l; assumption).
  assert (d * div m d <= d * (m / d * (1 + unitRoundoff))) as H2
    by (apply Qmult_le_l; assumption).
  rewrite Qmult_assoc, Hmul in H1, H2. split; assumption.
Qed.

Lemma div_mono (m d d' : Q) :
  0 < m -> 0 < d -> d <= d' -> div m d' <= div m d.
Proof.
  intros Hm Hd Hdd. unfold div. apply round_mono.
  - apply Qlt_shift_div_l; lra.
  - apply Qle_shift_div_l; [lra |].
    assert (m / d' * d' == m) as Heq by (field; lra).
    apply Qle_trans with (m / d' * d'); [| lra].
    apply Qmult_le_l; [apply Qlt_shift_div_l; lra | exact Hdd].
Qed.


Lemma ratio_pos (img : Img) (m : Q) :
  (0 < width img)%Z -> (0 < height img)%Z -> 0 < m -> 0 < ratio img m.
Proof.
  intros Hw Hh Hm. unfold ratio. apply Q.min_glb_lt.
  - apply div_bounds; [exact Hm | now apply inject_Z_pos].
  - apply div_bounds; [exact Hm | now apply inject_Z_pos].
Qed.

(** A dimension times the ratio, rounded, is below [maxWidth + 1]. *)
Lemma scaled_lt (d : Z) (r : Q) (M : Z) :
  (0 < d)%Z -> (0 < M < 2 ^ 31)%Z ->
  0 < r -> r <= div (inject_Z M) (inject_Z d) ->
  0 < mul (inject_Z d) r /\ mul (inject_Z d) r < inject_Z M + 1.
Proof.
  intros Hd HM Hr Hle.
  pose proof (inject_Z_pos d Hd) as HD.
  pose proof (inject_Z_pos M ltac:(lia)) as HMq.
  destruct (div_bounds (inject_Z M) (inject_Z d) HMq HD) as (_ & Hhi & _).
  assert (0 < inject_Z d * r) as Hp by (apply Qmult_lt_0_compat; assumption).
  assert (inject_Z d * r <= inject_Z d * div (inject_Z M) (inject_Z d)) as H1
    by (apply Qmult_le_l; assumption).
  destruct (round_bounds (inject_Z d * r) Hp) as [_ H2]. fold (mul (inject_Z d) r) in H2.
  assert (inject_Z M < 2147483648) as H3.
  { change 2147483648 with (inject_Z (2 ^ 31)). rewrite <- Zlt_Qlt. lia. }
  split; [now apply round_pos |]. unfold unitRoundoff in *. lra.
Qed.

Lemma Qfloor_range (x : Q) (M : Z) :
  0 < x -> x < inject_Z M + 1 -> (0 <= Qfloor x <= M)%Z.
Proof.
  intros H0 H1. split.
  - rewrite <- (Qfloor_Z 0). apply Qfloor_resp_le. now apply Qlt_le_weak.
  - pose proof (Qfloor_le x) as Hf.
    assert (inject_Z (Qfloor x) < inject_Z (M + 1)) as Hlt
      by (rewrite inject_Z_plus; change (inject_Z 1) with 1; lra).
    rewrite <- Zlt_Qlt in Hlt. lia.
Qed.





(** Rounding shows in the result.  In binary64, 336 * (1200 / 448) is
    899.9999999999999 and the canvas is 1200 by 899; 73 * (1200 / 73) is
    1200.0000000000002, above [maxWidth] before the canvas keeps the integer
    part; 291 * (1200 / 291) is 1199.9999999999998 and the canvas is 1199
    by 1199. *)
Example optimizeImage_448_336 :
  let b := optimizeImage (mkImg 448 336) None None in
  scaledHeight (mkImg 448 336) 1200 = 7916483719987199 # 8796093022208 /\
  canvasWidth b = 1200%Z /\ canvasHeight b = 899%Z.
Proof. vm_compute. repeat split. Qed.

Example optimizeImage_73_73 :
  let b := optimizeImage (mkImg 73 73) None None in
  scaledWidth (mkImg 73 73) 1200 = 5277655813324801 # 4398046511104 /\
  canvasWidth b = 1200%Z /\ canvasHeight b = 1200%Z.
Proof. vm_compute. repeat split. Qed.

Example optimizeImage_291_291 :
  let b := optimizeImage (mkImg 291 291) None None in
  scaledWidth (mkImg 291 291) 1200 = 5277655813324799 # 4398046511104 /\
  canvasWidth b = 1199%Z /\ canvasHeight b = 1199%Z.
Proof. vm_compute. repeat split. Qed.


(** The rational model against the kernel's binary64 arithmetic: the two
    products agree on every size up to 24 by 24, on 4:3 images of widths 2
    to 801 and, for a 4032 by 3024 image, on every [maxWidth] from 1 to
    600. *)
Example agrees_small_sizes : forallb (agrees 1200) (sizes 24) = true.
Proof. vm_compute. reflexivity. Qed.

Example agrees_4_by_3 :
  forallb (fun w => agrees 1200 (mkImg w (w * 3 / 4))) (Z.of_nat <$> seq 2 800) = true.
Proof. vm_compute. reflexivity. Qed.

Example agrees_maxWidths :
  forallb (fun m => agrees m (mkImg 4032 3024)) (Z.of_nat <$> seq 1 600) = true.
Proof. vm_compute. reflexivity. Qed.

End Optimizer.

(** * The rest of the script *)

(** ** Theme: what every reachable state satisfies *)

Section ThemeInvariants.

Import ThemeManager.

(** The field, the document attribute, the persisted flag and the icon tell
    the same theme. *)
Definition agree (s : State) : Prop :=
  dataTheme s = Some (currentTheme s) /\
  theme_key (storage s) = Some (currentTheme s) /\
  iconText s = (if String.eqb (currentTheme s) "dark" then sun else moon).

Lemma constructor_agree (env : Env) (icon : string) (st : Storage) :
  agree (constructor env (initial icon st)).
Proof.
  unfold agree, constructor, truthy. simpl.
  destruct (theme_key st) as [v |]; [| now repeat split].
  destruct (String.eqb v ""); now repeat split.
Qed.

Lemma step_agree (e : Event) (s : State) : agree s -> agree (step e s).
Proof.
  intros (Hd & Hk & Hi). destruct e as [| m | | o]; simpl.
  - unfold agree, toggleTheme. simpl. now repeat split.
  - destruct (mediaListener s); [| now repeat split].
    unfold onSystemChange. destruct (negb (truthy (theme_key (storage s))));
      [| now repeat split].
    unfold agree. simpl. now repeat split.
  - destruct (0 <? pendingClears s)%nat; now repeat split.
  - now repeat split.
Qed.

(** Whatever was stored before the page loaded and whatever happens after,
    [this.currentTheme], the [data-theme] attribute and the persisted flag
    hold the same theme, and the icon is the one of that theme. *)
Theorem reachable_theme_agrees
    (env : Env) (icon : string) (st : Storage) (es : list Event) :
  let s := run es (constructor env (initial icon st)) in
  dataTheme s = Some (currentTheme s) /\
  theme_key (storage s) = Some (currentTheme s) /\
  iconText s = (if String.eqb (currentTheme s) "dark" then sun else moon).
Proof.
  cbv zeta. fold (agree (run es (constructor env (initial icon st)))).
  generalize (constructor_agree env icon st).
  generalize (constructor env (initial icon st)).
  induction es as [| e es IH]; intros s Hs; [exact Hs |].
  simpl. apply IH. now apply step_agree.
Qed.

Lemma toggleTheme_fields (s : State) :
  currentTheme (toggleTheme s)
  = (if String.eqb (currentTheme s) "dark" then "light" else "dark")%string /\
  dataTheme (toggleTheme s) = Some (currentTheme (toggleTheme s)) /\
  theme_key (storage (toggleTheme s)) = Some (currentTheme (toggleTheme s)) /\
  iconText (toggleTheme s)
  = (if String.eqb (currentTheme (toggleTheme s)) "dark" then sun else moon).
Proof. split; [| split; [| split]]; reflexivity. Qed.

Lemma eqb_light_dark : String.eqb "light" "dark" = false.
Proof. reflexivity. Qed.

Lemma eqb_dark_dark : String.eqb "dark" "dark" = true.
Proof. reflexivity. Qed.

(** A stored theme that is neither ["light"] nor ["dark"] is applied as it
    is, and the first toggle replaces it by ["dark"]; from the first toggle
    on, toggling twice gives back the theme, whatever it was at the start. *)
Theorem toggleTheme_after_first_toggle (s : State) :
  let s1 := toggleTheme s in
  (currentTheme s1 = "light"%string \/ currentTheme s1 = "dark"%string) /\
  (currentTheme s1 = "light"%string <-> currentTheme s = "dark"%string) /\
  currentTheme (toggleTheme (toggleTheme s1)) = currentTheme s1 /\
  dataTheme (toggleTheme (toggleTheme s1)) = dataTheme s1 /\
  theme_key (storage (toggleTheme (toggleTheme s1))) = theme_key (storage s1) /\
  iconText (toggleTheme (toggleTheme s1)) = iconText s1.
Proof.
  cbv zeta.
  destruct (toggleTheme_fields s) as (Hc1 & Hd1 & Hk1 & Hi1).
  destruct (toggleTheme_fields (toggleTheme s)) as (Hc2 & _).
  destruct (toggleTheme_fields (toggleTheme (toggleTheme s))) as (Hc3 & Hd3 & Hk3 & Hi3).
  assert (currentTheme (toggleTheme (toggleTheme (toggleTheme s)))
          = currentTheme (toggleTheme s)) as Hback.
  { rewrite Hc3, Hc2. rewrite Hc1.
    destruct (String.eqb (currentTheme s) "dark").
    - now rewrite eqb_light_dark, eqb_dark_dark.
    - now rewrite eqb_dark_dark, eqb_light_dark. }
  rewrite Hd3, Hk3, Hi3, Hback, Hd1, Hk1, Hi1.
  split; [| split; [| now repeat split]].
  - rewrite Hc1. destruct (String.eqb (currentTheme s) "dark"); [now left | now right].
  - rewrite Hc1. destruct (String.eqb (currentTheme s) "dark") eqn:Hd.
    + apply String.eqb_eq in Hd. now split.
    + apply String.eqb_neq in Hd. split; [discriminate | contradiction].
Qed.

(** The gallery's writes to the other storage key and the transition
    timers leave the theme alone: only a toggle changes it once the manager
    is constructed. *)
Theorem theme_changes_only_on_toggle
    (env : Env) (icon : string) (st : Storage) (es : list Event) :
  (forall e, e ∈ es -> e <> ToggleClick) ->
  currentTheme (run es (constructor env (initial icon st)))
  = currentTheme (constructor env (initial icon st)) /\
  dataTheme (run es (constructor env (initial icon st)))
  = dataTheme (constructor env (initial icon st)).
Proof.
  intros Hno.
  pose proof (constructor_persisted env icon st) as Hp. revert Hp Hno.
  generalize (constructor env (initial icon st)) as s.
  induction es as [| e es IH]; intros s Hp Hno; [now split |].
  simpl.
  assert (step e s = s \/ (currentTheme (step e s) = currentTheme s /\
                           dataTheme (step e s) = dataTheme s)) as Hstep.
  { destruct e as [| m | | o]; simpl.
    - exfalso. apply (Hno ToggleClick); [apply elem_of_cons; now left | reflexivity].
    - left. destruct (mediaListener s); [| reflexivity].
      now apply onSystemChange_persisted.
    - right. destruct (0 <? pendingClears s)%nat; split; reflexivity.
    - right. split; reflexivity. }
  destruct (IH (step e s)) as [Hc Hd].
  - now apply step_persisted.
  - intros e' He'. apply Hno. apply elem_of_cons. now right.
  - destruct Hstep as [Hs | [Hc' Hd']].
    + rewrite Hs in Hc, Hd |- *. split; [exact Hc | exact Hd].
    + rewrite Hc' in Hc. rewrite Hd' in Hd. split; [exact Hc | exact Hd].
Qed.

Lemma theme_changes_only_on_toggle_witness :
  currentTheme (run [SystemChange true; LikesWritten [("Sunset"%string, 4)]; TransitionTimer]
                  (constructor (mkEnv (Some false)) (initial moon (mkStorage None None))))
  = "light"%string.
Proof.
  refine (eq_trans (proj1 (theme_changes_only_on_toggle (mkEnv (Some false)) moon
                             (mkStorage None None)
                             [SystemChange true; LikesWritten [("Sunset"%string, 4)];
                              TransitionTimer] _)) _).
  - intros e He.
    repeat (apply elem_of_cons in He as [-> | He]; [discriminate |]).
    now apply elem_of_nil in He.
  - reflexivity.
Defined.

End ThemeInvariants.

(** ** Validation and uploads: the remaining cases *)

Section UploadsMore.

Import GalleryManager.

(** [validateImageFile] never returns [false]: it returns [true] exactly
    on a file of an accepted type and of at most 10 MiB, throws the type
    message exactly on another type (also when the file is too large as
    well: the type is checked first), and the size message exactly on an
    accepted type with more than 10 MiB. *)
Theorem validateImageFile_verdict (file : File) :
  (validateImageFile file = Normal true <-> validFile file) /\
  (validateImageFile file = Throw invalidTypeMessage
   <-> file_type file ∉ allowedTypes) /\
  (validateImageFile file = Throw tooLargeMessage
   <-> file_type file ∈ allowedTypes /\ file_size file > 10 * 1024 * 1024) /\
  validateImageFile file <> Normal false.
Proof.
  assert (invalidTypeMessage <> tooLargeMessage) as Hmsg by discriminate.
  unfold validateImageFile, validFile.
  destruct (includes allowedTypes (file_type file)) eqn:Hi; simpl.
  - apply includes_elem_of in Hi.
    destruct (file_size file >? maxSize) eqn:Hgt;
      rewrite Z.gtb_ltb in Hgt; unfold maxSize in Hgt.
    + apply Z.ltb_lt in Hgt.
      split; [split; [discriminate | intros [_ H]; lia] |].
      split; [split; [congruence | intros H; contradiction] |].
      split; [split; [intros _; split; [exact Hi | lia] | reflexivity] |].
      discriminate.
    + apply Z.ltb_ge in Hgt.
      split; [split; [intros _; split; [exact Hi | lia] | reflexivity] |].
      split; [split; [discriminate | intros H; contradiction] |].
      split; [split; [discriminate | intros [_ H]; lia] |].
      discriminate.
  - assert (file_type file ∉ allowedTypes) as Hn
      by (intros H; apply includes_elem_of in H; congruence).
    split; [split; [discriminate | intros [H _]; contradiction] |].
    split; [split; [intros _; exact Hn | reflexivity] |].
    split; [split; [congruence | intros [H _]; contradiction] |].
    discriminate.
Qed.

(** The loading indicator is never left showing: an upload that passes
    validation ends with it hidden, whether the read succeeds or fails, and
    a rejected upload does not touch it. *)
Theorem handlePhotoUpload_loading
    (ph : nat) (pick : PickerEvent) (read : ReadOutcome) (g : Page) :
  loadingDisplay (handlePhotoUpload ph pick read g)
  = match pickedFile pick with
    | Normal _ => "none"%string
    | Throw _ => loadingDisplay g
    end.
Proof.
  unfold handlePhotoUpload. destruct (pickedFile pick) as [file | message];
    [| reflexivity].
  unfold removeChild. rewrite isChild_appendChild. now destruct read.
Qed.

(** An accepted upload whose read succeeds leaves nothing behind in the
    document (the hidden input is removed again), paints the clicked
    placeholder only, and schedules one timer; when that timer fires the
    pulse animation is cleared and the image stays. *)
Theorem handlePhotoUpload_painted
    (ph : nat) (pick : PickerEvent) (result : string) (g : Page) (file : File) :
  wellFormed g ->
  pickedFile pick = Normal file ->
  let g' := handlePhotoUpload ph pick (Loaded result) g in
  body g' = body g /\
  timers g' = timers g ++ [ClearPulse ph] /\
  (forall j, j <> ph -> placeholders g' !! j = placeholders g !! j) /\
  (forall p, placeholders g !! ph = Some p ->
     placeholders (fire (ClearPulse ph) g') !! ph
     = Some {| backgroundImage := "url(" +:+ result +:+ ")";
               backgroundSize := "cover"; backgroundPosition := "center";
               innerHTML := ""; color := "transparent"; pulse := "" |}).
Proof.
  intros Hwf Hp. cbv zeta. unfold handlePhotoUpload. rewrite Hp.
  destruct (removeChild_appendChild FileInput g Hwf)
    as (g2 & -> & Hb & Hph & _ & _ & Ht).
  simpl. rewrite Hb, Ht, Hph. split; [reflexivity |]. split; [reflexivity |].
  split.
  - intros j Hj. now rewrite list_lookup_alter_ne by congruence.
  - intros p Hpl. now rewrite !list_lookup_alter_eq, Hpl.
Qed.

Lemma handlePhotoUpload_painted_witness :
  body (handlePhotoUpload 0 (Change [png10MiB]) (Loaded "data:image/png;base64,AAAA")
          onePlaceholder) = [] /\
  timers (handlePhotoUpload 0 (Change [png10MiB]) (Loaded "data:image/png;base64,AAAA")
            onePlaceholder) = [ClearPulse 0].
Proof.
  destruct (handlePhotoUpload_painted 0 (Change [png10MiB])
              "data:image/png;base64,AAAA" onePlaceholder png10MiB
              (constructor_wellFormed _ _ _) eq_refl) as (Hb & Ht & _).
  split; [exact Hb | exact Ht].
Defined.

(** A rejected upload leaves two elements in the document: the notice, and
    the hidden file input, which only the accepting path removes. *)
Lemma rejected_upload_keeps_input_witness :
  body (handlePhotoUpload 0 Cancel ReadFailed onePlaceholder)
  = [(0%nat, FileInput);
     (1%nat, ErrorMessage "Upload cancelled" "slideInRight 0.3s ease")].
Proof.
  exact (rejected_upload_keeps_input 0 Cancel ReadFailed onePlaceholder
           "Upload cancelled" eq_refl).
Defined.

(** The notice of [showError] removes itself.  [showError] appends the
    notice and schedules its slide-out as the newest timer; when that timer
    fires the notice starts sliding out and its removal is scheduled; when
    the removal fires the notice is gone: body and pending timers are as
    before [showError] and nothing was logged. *)
Theorem showError_dismisses (message : string) (g : Page) :
  wellFormed g ->
  let k := length (timers g) in
  let g1 := showError message g in
  let g2 := fireAt k g1 in
  let g3 := fireAt k g2 in
  (body g1 = body g ++ [(nextNode g, ErrorMessage message "slideInRight 0.3s ease")] /\
   timers g1 = timers g ++ [SlideOutError (nextNode g)] /\
   errorsShown g1 = errorsShown g ++ [message]) /\
  (body g2 = body g ++ [(nextNode g,
                         ErrorMessage message "slideOutRight 0.3s ease forwards")] /\
   timers g2 = timers g ++ [RemoveError (nextNode g)] /\
   errorsShown g2 = errorsShown g ++ [message]) /\
  (body g3 = body g /\ timers g3 = timers g /\ console g3 = console g).
Proof.
  intros Hwf. cbv zeta.
  assert (forall a, (fun c : nat * BodyNode =>
                       match c with
                       | (id, ErrorMessage m _) =>
                           if Nat.eqb id (nextNode g)
                           then (id, ErrorMessage m a) else c
                       | _ => c
                       end) <$> body g = body g) as Hmap.
  { intros a. unfold wellFormed in Hwf.
    induction (body g) as [| [k n] l IH]; [reflexivity |].
    apply Forall_cons in Hwf as [Hk Hl]. rewrite fmap_cons, IH by exact Hl.
    f_equal. destruct n as [| src fade | m s]; try reflexivity.
    simpl in Hk. destruct (Nat.eqb_spec k (nextNode g)); [lia | reflexivity]. }
  assert (fireAt (length (timers g)) (showError message g)
          = fire (SlideOutError (nextNode g))
              (withTimers (timers g)
                 (appendChild (ErrorMessage message "slideInRight 0.3s ease") g)))
    as H2.
  { unfold fireAt, showError, setTimeout. simpl.
    rewrite list_lookup_middle by reflexivity.
    rewrite delete_middle, app_nil_r. reflexivity. }
  assert (body (fireAt (length (timers g)) (showError message g))
          = body g ++ [(nextNode g,
                        ErrorMessage message "slideOutRight 0.3s ease forwards")])
    as Hb2.
  { rewrite H2. unfold fire, setTimeout, setSlide. simpl.
    rewrite fmap_app, Hmap. simpl. now rewrite Nat.eqb_refl. }
  assert (timers (fireAt (length (timers g)) (showError message g))
          = timers g ++ [RemoveError (nextNode g)]) as Ht2.
  { rewrite H2. reflexivity. }
  split; [split; [reflexivity | split; [reflexivity | apply errorsShown_showError]] |].
  split.
  - split; [exact Hb2 | split; [exact Ht2 |]].
    unfold errorsShown. rewrite Hb2, omap_app. reflexivity.
  - unfold fireAt at 1 3 5. rewrite Ht2.
    rewrite list_lookup_middle by reflexivity.
    rewrite delete_middle, app_nil_r.
    unfold fire, removeChild, isChild. simpl. rewrite Hb2.
    rewrite existsb_app. simpl. rewrite Nat.eqb_refl, orb_true_r. simpl.
    rewrite filter_app, filter_fresh by exact Hwf.
    rewrite filter_cons, filter_nil.
    destruct (decide ((nextNode g, ErrorMessage message
                         "slideOutRight 0.3s ease forwards").1 <> nextNode g))
      as [Hne | _]; [now contradiction Hne |].
    rewrite app_nil_r. split; [reflexivity | split; [reflexivity |]].
    rewrite H2. reflexivity.
Qed.

Lemma showError_dismisses_witness :
  timers (showError "No photo to view. Please upload a photo first." onePlaceholder)
  = [SlideOutError 0] /\
  timers (fireAt 0 (showError "No photo to view. Please upload a photo first."
                      onePlaceholder))
  = [RemoveError 0] /\
  body (fireAt 0 (fireAt 0
          (showError "No photo to view. Please upload a photo first." onePlaceholder)))
  = [].
Proof.
  destruct (showError_dismisses
              "No photo to view. Please upload a photo first." onePlaceholder
              (constructor_wellFormed _ _ _))
    as [(_ & Ht1 & _) [(_ & Ht2 & _) (Hb3 & _ & _)]].
  split; [exact Ht1 | split; [exact Ht2 | exact Hb3]].
Defined.

End UploadsMore.

(** ** Viewing a photo *)

Section Viewing.

Import GalleryManager.

Definition noPhotoMessage : string :=
  "No photo to view. Please upload a photo first.".

(** [handleView(button)], given the inline [background-image] of the
    entry's [.photo-container] (the empty string when none is set). *)
Definition handleView (backgroundImage : string) (g : Page) : Page :=
  if negb (String.eqb backgroundImage "")
     && negb (String.eqb backgroundImage "none")
  then createPhotoModal backgroundImage g
  else showError noPhotoMessage g.

(** Events on which exactly one listener of the overlay runs [closeModal]:
    a click on the backdrop or on anything in it but the close control, and
    the Escape key on any part of the overlay. *)
Definition closesOnce (e : ModalEvent) : bool :=
  match e with
  | Click Backdrop | Click Content | Click Image => true
  | Click _ => false
  | KeyDown key _ => String.eqb key "Escape"
  end.

(** Events no listener of the overlay reacts to. *)
Definition ignored (e : ModalEvent) : bool :=
  match e with
  | Click Modal => true
  | Click _ => false
  | KeyDown key _ => negb (String.eqb key "Escape")
  end.

Lemma dispatchEvent_once (modal : nat) (e : ModalEvent) (g : Page) :
  closesOnce e = true -> isChild modal g = true ->
  dispatchEvent modal e g = closeModal modal g.
Proof.
  intros He Hc. unfold dispatchEvent. rewrite Hc.
  destruct e as [[] | key []]; simpl in He; try discriminate;
    simpl; rewrite ?He; reflexivity.
Qed.

Lemma setFade_fresh (a : string) (g : Page) :
  wellFormed g ->
  (fun c : nat * BodyNode =>
     match c with
     | (id, PhotoModal src _) =>
         if Nat.eqb id (nextNode g) then (id, PhotoModal src a) else c
     | _ => c
     end) <$> body g = body g.
Proof.
  unfold wellFormed. intros Hwf.
  induction (body g) as [| [k n] l IH]; [reflexivity |].
  apply Forall_cons in Hwf as [Hk Hl]. rewrite fmap_cons, IH by exact Hl.
  f_equal. destruct n as [| src fade | m s]; try reflexivity.
  simpl in Hk. destruct (Nat.eqb_spec k (nextNode g)); [lia | reflexivity].
Qed.

(** Without an image ([""] or ["none"]) [handleView] opens nothing and
    shows its notice; the entries, the placeholders and the storage are not
    touched. *)
Theorem handleView_without_photo (backgroundImage : string) (g : Page) :
  backgroundImage = ""%string \/ backgroundImage = "none"%string ->
  body (handleView backgroundImage g)
  = body g ++ [(nextNode g, ErrorMessage noPhotoMessage "slideInRight 0.3s ease")] /\
  errorsShown (handleView backgroundImage g) = errorsShown g ++ [noPhotoMessage] /\
  photoItems (handleView backgroundImage g) = photoItems g /\
  storage (handleView backgroundImage g) = storage g.
Proof.
  intros H.
  assert (handleView backgroundImage g = showError noPhotoMessage g) as ->
    by (destruct H as [-> | ->]; reflexivity).
  destruct (errorsShown_showError noPhotoMessage g) as (He & _ & Hit & Hst).
  split; [reflexivity |]. split; [exact He |]. split; [exact Hit | exact Hst].
Qed.

Lemma handleView_without_photo_witness :
  errorsShown (handleView "none" onePlaceholder) = [noPhotoMessage].
Proof.
  exact (proj1 (proj2 (handleView_without_photo "none" onePlaceholder
                         (or_intror eq_refl)))).
Defined.

(** Opening an overlay and closing it by one of the single-listener events
    is a round trip: the overlay is in the document until its timer fires,
    and then the document is exactly as before the view, with nothing
    logged.  This holds on any page, also one that shows other overlays. *)
Theorem view_then_close_restores
    (backgroundImage : string) (e : ModalEvent) (g : Page) :
  wellFormed g ->
  backgroundImage <> ""%string -> backgroundImage <> "none"%string ->
  closesOnce e = true ->
  let modal := nextNode g in
  let g1 := handleView backgroundImage g in
  let g2 := dispatchEvent modal e g1 in
  let g3 := fire (RemoveModal modal) g2 in
  body g1 = body g ++ [(modal, PhotoModal backgroundImage "")] /\
  errorsShown g1 = errorsShown g /\
  timers g2 = timers g ++ [RemoveModal modal] /\
  isChild modal g2 = true /\
  body g3 = body g /\
  console g3 = console g.
Proof.
  intros Hwf H1 H2 He. cbv zeta.
  apply String.eqb_neq in H1, H2. unfold handleView. rewrite H1, H2. simpl.
  pose proof (isChild_appendChild (PhotoModal backgroundImage "") g) as Hc.
  fold (createPhotoModal backgroundImage g) in Hc |- *.
  rewrite (dispatchEvent_once _ e _ He Hc).
  destruct (closeModal_effect (nextNode g) (createPhotoModal backgroundImage g))
    as (Ht & Hcon & Hch).
  split; [reflexivity |].
  split; [unfold errorsShown, createPhotoModal; simpl; rewrite omap_app; simpl;
          now rewrite app_nil_r |].
  split; [exact Ht |].
  split; [now rewrite Hch |].
  unfold fire, removeChild. rewrite Hch, Hc. simpl.
  split; [| reflexivity].
  rewrite fmap_app, setFade_fresh by exact Hwf. simpl.
  rewrite Nat.eqb_refl, filter_app, filter_fresh by exact Hwf.
  rewrite filter_cons, filter_nil.
  destruct (decide ((nextNode g, PhotoModal backgroundImage
                       "fadeOut 0.3s ease forwards").1 <> nextNode g))
    as [Hne | _]; [now contradiction Hne |].
  now rewrite app_nil_r.
Qed.

Lemma view_then_close_restores_witness :
  body (fire (RemoveModal 0)
          (dispatchEvent 0 (Click Image)
             (handleView "url(data:image/png;base64,AAAA)" onePlaceholder))) = [].
Proof.
  refine (proj1 (proj2 (proj2 (proj2 (proj2
            (view_then_close_restores "url(data:image/png;base64,AAAA)"
               (Click Image) onePlaceholder (constructor_wellFormed _ _ _) _ _ _)))))).
  - discriminate.
  - discriminate.
  - reflexivity.
Defined.

(** A click on the overlay element outside its backdrop, and any key but
    Escape, change nothing at all. *)
Theorem dispatchEvent_ignored (modal : nat) (e : ModalEvent) (g : Page) :
  ignored e = true -> dispatchEvent modal e g = g.
Proof.
  intros He. unfold dispatchEvent. destruct (isChild modal g); [| reflexivity].
  destruct e as [[] | key []]; simpl in He; try discriminate; simpl;
    try reflexivity;
    apply negb_true_iff in He; rewrite He; reflexivity.
Qed.

Lemma dispatchEvent_ignored_witness :
  dispatchEvent 0 (KeyDown "Enter" CloseBtn) (createPhotoModal "url(x)" onePlaceholder)
  = createPhotoModal "url(x)" onePlaceholder.
Proof. exact (dispatchEvent_ignored 0 (KeyDown "Enter" CloseBtn) _ eq_refl). Defined.

End Viewing.

(** ** Likes: what a click and a page load leave alone *)

Section LikesMore.

Import GalleryManager.

(** A like changes one entry and one stored count: the other entries, the
    counts stored under other titles, the theme flag, the placeholders and
    the document body are as before, and one animation timer is added. *)
Theorem handleLike_frame (g : Page) (i : nat) (item : PhotoItem) :
  photoItems g !! i = Some item ->
  (forall j, j <> i -> photoItems (handleLike i g) !! j = photoItems g !! j) /\
  (forall k, k <> title item ->
     objGet k (savedLikes (storage (handleLike i g)))
     = objGet k (savedLikes (storage g))) /\
  theme_key (storage (handleLike i g)) = theme_key (storage g) /\
  placeholders (handleLike i g) = placeholders g /\
  body (handleLike i g) = body g /\
  timers (handleLike i g) = timers g ++ [ClearHeartBeat i] /\
  length (photoItems (handleLike i g)) = length (photoItems g).
Proof.
  intros Hi. split; [intros j Hj; apply handleLike_other; congruence |].
  unfold handleLike. rewrite Hi. simpl.
  split; [intros k Hk; apply objGet_objSet_ne; congruence |].
  repeat split. apply length_insert.
Qed.

Lemma handleLike_frame_witness :
  objGet "Dunes" (savedLikes (storage (handleLike 0
    (constructor [portraitItem; landscapeItem] []
       (mkStorage None (Some [("Dunes"%string, 7)]))))))
  = Some 7.
Proof.
  destruct (handleLike_frame
              (constructor [portraitItem; landscapeItem] []
                 (mkStorage None (Some [("Dunes"%string, 7)])))
              0 portraitItem eq_refl) as (_ & Hk & _).
  rewrite (Hk "Dunes"%string); [reflexivity | discriminate].
Defined.

Lemma like_then_reload_witness :
  exists item',
    photoItems (reload (photoItems twoPhotos) [] (storage (handleLike 0 twoPhotos)))
      !! 0%nat = Some item' /\
    displayedLikes item' = 4.
Proof.
  destruct (like_then_reload twoPhotos [] 0 portraitItem eq_refl)
    as (item' & Hl & _ & Hd).
  - apply NoDup_nil_2.
  - intros j y _ Hj. lia.
  - discriminate.
  - unfold JS.exactInt. vm_compute. split; discriminate.
  - unfold JS.exactInt. vm_compute. split; discriminate.
  - exists item'. split; [exact Hl | exact Hd].
Defined.

(** When the timer of the like animation fires, the animation is cleared
    and the count stays. *)
Theorem heartBeat_cleared (g : Page) (i : nat) (item : PhotoItem) :
  photoItems g !! i = Some item ->
  JS.exactInt (displayedLikes item) ->
  JS.exactInt (displayedLikes item + 1) ->
  exists b,
    photoItems (fire (ClearHeartBeat i) (handleLike i g)) !! i = Some b /\
    likeAnimation b = ""%string /\
    likesText b = likesLabel (displayedLikes item + 1) /\
    storage (fire (ClearHeartBeat i) (handleLike i g)) = storage (handleLike i g).
Proof.
  intros Hi _ _. destruct (handleLike_same g i item Hi) as [Hl _].
  eexists. simpl. rewrite list_lookup_alter_eq, Hl. simpl.
  split; [reflexivity |]. now repeat split.
Qed.

Lemma heartBeat_cleared_witness :
  exists b,
    photoItems (fire (ClearHeartBeat 0) (handleLike 0 twoPhotos)) !! 0%nat = Some b /\
    likeAnimation b = ""%string /\ likesText b = "4 likes"%string.
Proof.
  destruct (heartBeat_cleared twoPhotos 0 portraitItem eq_refl) as (b & Hb & Ha & Ht & _).
  - unfold JS.exactInt. vm_compute. split; discriminate.
  - unfold JS.exactInt. vm_compute. split; discriminate.
  - exists b. split; [exact Hb |]. split; [exact Ha | exact Ht].
Defined.

(** Everything of an entry but its like text. *)
Definition besidesLikes (item : PhotoItem)
    : option string * list string * string * string * string :=
  (category item, classList item, animation item, title item, likeAnimation item).

Lemma restoreEntry_besides (e : string * Z) (items : list PhotoItem) :
  besidesLikes <$> restoreEntry e items = besidesLikes <$> items.
Proof.
  unfold restoreEntry.
  destruct (list_find _ items) as [[i it] |] eqn:Hf; [| reflexivity].
  apply list_find_Some in Hf as (Hi & _ & _).
  rewrite list_fmap_insert. apply list_insert_id.
  now rewrite list_lookup_fmap, Hi.
Qed.

Lemma restoreEntry_other_title (e : string * Z) (items : list PhotoItem)
    (i : nat) (item : PhotoItem) :
  items !! i = Some item -> title item <> fst e ->
  restoreEntry e items !! i = Some item.
Proof.
  intros Hi Hne. unfold restoreEntry.
  destruct (list_find _ items) as [[k it] |] eqn:Hf; [| exact Hi].
  apply list_find_Some in Hf as (Hk & Ht & _).
  rewrite list_lookup_insert_ne; [exact Hi |]. intros ->. congruence.
Qed.

(** A page load changes nothing of the entries but like texts, and only of
    entries whose title was saved: an entry with an unsaved title shows the
    markup's text, and with nothing saved at all the entries are the
    markup's. *)
Theorem reload_only_saved_likes
    (markup : list PhotoItem) (phs : list Placeholder) (st : Storage) :
  besidesLikes <$> photoItems (reload markup phs st) = besidesLikes <$> markup /\
  (forall i item, markup !! i = Some item ->
     title item ∉ (savedLikes st).*1 ->
     photoItems (reload markup phs st) !! i = Some item) /\
  (photoLikes_key st = None -> photoItems (reload markup phs st) = markup) /\
  storage (reload markup phs st) = st.
Proof.
  unfold reload, loadSavedLikes. simpl.
  split; [| split; [| split; [| reflexivity]]].
  - generalize markup. induction (savedLikes st) as [| e es IH]; intros items;
      [reflexivity |].
    simpl. now rewrite IH, restoreEntry_besides.
  - intros i item. generalize markup.
    induction (savedLikes st) as [| e es IH]; intros items Hi Hnin; [exact Hi |].
    simpl in *. apply not_elem_of_cons in Hnin as [Hne Hnin].
    apply IH; [| exact Hnin]. now apply restoreEntry_other_title.
  - unfold savedLikes. now intros ->.
Qed.

Lemma reload_only_saved_likes_witness :
  photoItems (reload [portraitItem; landscapeItem] []
                (mkStorage None (Some [("Harbour"%string, 9)])))
  = [portraitItem; landscapeItem].
Proof.
  destruct (reload_only_saved_likes [portraitItem; landscapeItem] []
              (mkStorage None (Some [("Harbour"%string, 9)]))) as (_ & Hun & _).
  apply list_eq. intros [| [| i]]; simpl.
  - apply (Hun 0%nat); [reflexivity |].
    intros H. apply list_elem_of_singleton in H. discriminate.
  - apply (Hun 1%nat); [reflexivity |].
    intros H. apply list_elem_of_singleton in H. discriminate.
  - reflexivity.
Defined.

(** Liking and filtering do not interfere: in either order the page is the
    same. *)
Theorem handleLike_filterPhotos_commute
    (i : nat) (f : option string) (g : Page) :
  handleLike i (filterPhotos f g) = filterPhotos f (handleLike i g).
Proof.
  unfold handleLike.
  change (photoItems (filterPhotos f g)) with (filterItem f <$> photoItems g).
  rewrite list_lookup_fmap.
  destruct (photoItems g !! i) as [item |] eqn:Hi; [| reflexivity].
  cbn [fmap option_fmap option_map].
  assert (title (filterItem f item) = title item) as Ht
    by (unfold filterItem; now destruct (_ || _)).
  assert (likesText (filterItem f item) = likesText item) as Hl
    by (unfold filterItem; now destruct (_ || _)).
  rewrite Ht, Hl.
  unfold filterPhotos, withStorage, setTimeout, withTimers, withPhotoItems,
    withCurrentFilter.
  cbn [photoItems currentFilter placeholders body nextNode loadingDisplay
       timers console storage].
  f_equal.
  rewrite list_fmap_insert. f_equal.
  unfold filterItem.
  cbn [category classList animation title likesText likeAnimation
       setLikeAnimation setLikesText].
  destruct (strictEq f (Some "all"%string) || strictEq (category item) f);
    reflexivity.
Qed.

End LikesMore.

(** ** Numbers as text *)

Section PrintParseMore.

Import JS.

Definition startsWithX (t : string) : bool :=
  match t with
  | String c _ => isX c
  | EmptyString => false
  end.

(** For an integer [n] of magnitude at most 2^53 (the range in which the
    embedding of [Number::toString] is the script's), [parseInt] reads back
    what [Number::toString] wrote, whatever follows, as long as what follows
    does not start with a decimal digit and, after a lone ["0"], does not
    start with [x] or [X] (which would make it a hexadecimal prefix). *)
Theorem parseInt_reads_numberToString (n : Z) (t : string) :
  exactInt n ->
  digitPrefix 10 t = [] ->
  n <> 0 \/ startsWithX t = false ->
  parseInt (numberToString n +:+ t) = Some n.
Proof.
  intros _ Ht Hx.
  assert (forall m, 0 <= m ->
            exists ds, digitPrefix 10 (toDigits (digitFuel m) m t) = ds /\
                       ds <> [] /\ digitsValue 10 ds = m) as Hread.
  { intros m Hm.
    destruct (toDigits_read (Z.to_nat (Z.log2 m)) m t (digitFuel_enough m Hm))
      as (ds & p & Hds & Hne & Hfold).
    exists ds. rewrite Ht, app_nil_r in Hds.
    split; [exact Hds | split; [exact Hne |]].
    unfold digitsValue. rewrite Hfold. lia. }
  assert (forall m, 0 < m ->
            exists d rest, 1 <= d < 10 /\
              toDigits (digitFuel m) m t = String (digitChar d) rest) as Hhead.
  { intros m Hm. apply toDigits_head.
    pose proof (digitFuel_enough m ltac:(lia)). unfold digitFuel in *. lia. }
  unfold numberToString. destruct (n <? 0) eqn:Hneg.
  - apply Z.ltb_lt in Hneg.
    change (String "-" ?x +:+ ?u) with (String "-" (x +:+ u)).
    rewrite toDigits_app. change (EmptyString +:+ t) with t.
    destruct (Hread (- n) ltac:(lia)) as (ds & Hds & Hne & Hval).
    destruct (Hhead (- n) ltac:(lia)) as (d & rest & Hd & Hh).
    unfold parseInt. cbn [trimStart]. change (isWhiteSpace "-") with false.
    cbn [signAndRest]. cbv iota beta. rewrite Hh in *.
    destruct (nonzero_head d rest Hd) as (_ & _ & ->).
    rewrite Hds. destruct ds as [| d0 ds]; [contradiction |].
    rewrite Hval. f_equal. lia.
  - apply Z.ltb_ge in Hneg. rewrite toDigits_app.
    change (EmptyString +:+ t) with t.
    destruct (Z.eq_dec n 0) as [-> | Hn0].
    + destruct Hx as [Hx | Hx]; [contradiction |].
      change (toDigits (digitFuel 0) 0 t) with (String "0" t).
      unfold parseInt.
      change (trimStart (String "0" t)) with (String "0" t).
      cbn [signAndRest]. cbv iota beta.
      assert (radixAndRest (String "0" t) = (10, String "0" t)) as ->.
      { destruct t as [| c r]; [reflexivity |]. simpl in Hx.
        unfold radixAndRest. now rewrite Hx. }
      change (digitPrefix 10 (String "0" t)) with (0 :: digitPrefix 10 t).
      now rewrite Ht.
    + destruct (Hread n Hneg) as (ds & Hds & Hne & Hval).
      destruct (Hhead n ltac:(lia)) as (d & rest & Hd & Hh).
      unfold parseInt. rewrite Hh in *.
      destruct (nonzero_head d rest Hd) as (-> & -> & ->).
      rewrite Hds. destruct ds as [| d0 ds]; [contradiction |].
      rewrite Hval. f_equal. lia.
Qed.

Lemma parseInt_reads_numberToString_witness :
  parseInt (numberToString (-2048) +:+ "px") = Some (-2048).
Proof.
  apply parseInt_reads_numberToString.
  - unfold exactInt. lia.
  - reflexivity.
  - left. discriminate.
Defined.

(** The second condition is needed: a lone ["0"] followed by [x] is read
    as a hexadecimal prefix. *)
Example parseInt_zero_x : parseInt (numberToString 0 +:+ "x1f") = Some 31.
Proof. reflexivity. Qed.

End PrintParseMore.

(** ** Filtering: buttons and repeated clicks *)

Module FilterButtons.

Import GalleryManager.

(** A [.filter-btn] element. *)
Record FilterBtn : Type := mkFilterBtn {
  dataFilter : option string;   (* btn.dataset.filter *)
  btnClasses : list string      (* btn.classList *)
}.

Definition setBtnClasses (l : list string) (b : FilterBtn) : FilterBtn :=
  {| dataFilter := dataFilter b; btnClasses := l |}.

(** [updateActiveButton(activeBtn)], the clicked button being the [k]-th of
    [this.filterButtons]. *)
Definition updateActiveButton (k : nat) (btns : list FilterBtn) : list FilterBtn :=
  alter (fun b => setBtnClasses (classAdd "active" (btnClasses b)) b) k
    ((fun b => setBtnClasses (classRemove "active" (btnClasses b)) b) <$> btns).

(** The click listener of [bindEvents] on the [k]-th filter button. *)
Definition clickFilter (k : nat) (s : Page * list FilterBtn) : Page * list FilterBtn :=
  match s.2 !! k with
  | Some btn => (filterPhotos (dataFilter btn) s.1, updateActiveButton k s.2)
  | None => s
  end.

Definition isActive (b : FilterBtn) : bool := contains "active" (btnClasses b).

End FilterButtons.

Section FilteringMore.

Import GalleryManager FilterButtons.

Lemma classRemove_idem (tok : string) (l : list string) :
  classRemove tok (classRemove tok l) = classRemove tok l.
Proof.
  unfold classRemove. induction l as [| c l IH]; [reflexivity |].
  rewrite filter_cons. destruct (decide (c <> tok)) as [Hne | Heq]; [| exact IH].
  rewrite filter_cons. destruct (decide (c <> tok)); [now rewrite IH | contradiction].
Qed.

Lemma classAdd_idem (tok : string) (l : list string) :
  classAdd tok (classAdd tok l) = classAdd tok l.
Proof.
  unfold classAdd at 1. now rewrite contains_classAdd.
Qed.

Lemma contains_classRemove_ne (tok tok' : string) (l : list string) :
  tok' <> tok -> contains tok' (classRemove tok l) = contains tok' l.
Proof.
  intros Hne. unfold contains, classRemove. induction l as [| c l IH]; [reflexivity |].
  rewrite filter_cons. destruct (decide (c <> tok)) as [Hc | Hc]; simpl.
  - now rewrite IH.
  - rewrite IH. apply dec_stable in Hc. subst c.
    now apply String.eqb_neq in Hne as ->.
Qed.

Lemma contains_classAdd_ne (tok tok' : string) (l : list string) :
  tok' <> tok -> contains tok' (classAdd tok l) = contains tok' l.
Proof.
  intros Hne. unfold classAdd. destruct (contains tok l); [reflexivity |].
  unfold contains. rewrite existsb_app. simpl.
  apply String.eqb_neq in Hne. now rewrite Hne, !orb_false_r.
Qed.

Lemma filterItem_idem (f : option string) (item : PhotoItem) :
  filterItem f (filterItem f item) = filterItem f item.
Proof.
  unfold filterItem at 1. rewrite category_filterItem. unfold filterItem.
  destruct (strictEq f (Some "all"%string) || strictEq (category item) f); simpl.
  - now rewrite classRemove_idem.
  - now rewrite classAdd_idem.
Qed.

(** Clicking the same filter again changes nothing: [filterPhotos] is
    idempotent on the whole page, class lists and animations included. *)
Theorem filterPhotos_idempotent (f : option string) (g : Page) :
  filterPhotos f (filterPhotos f g) = filterPhotos f g.
Proof.
  unfold filterPhotos, withPhotoItems, withCurrentFilter. simpl. f_equal.
  rewrite <- list_fmap_compose. apply list_fmap_ext.
  intros i item _. apply filterItem_idem.
Qed.

(** Filtering touches the [hidden] class and the animation only: every
    other class of an entry, its title, its like text and its category
    stay, no entry is added or dropped, and storage, body and timers are
    untouched. *)
Theorem filterPhotos_frame (f : option string) (g : Page) (i : nat) (item : PhotoItem) :
  photoItems g !! i = Some item ->
  exists item',
    photoItems (filterPhotos f g) !! i = Some item' /\
    (forall tok, tok <> "hidden"%string ->
       contains tok (classList item') = contains tok (classList item)) /\
    title item' = title item /\ likesText item' = likesText item /\
    category item' = category item /\
    length (photoItems (filterPhotos f g)) = length (photoItems g) /\
    storage (filterPhotos f g) = storage g /\
    body (filterPhotos f g) = body g /\
    timers (filterPhotos f g) = timers g.
Proof.
  intros Hi. exists (filterItem f item).
  split; [simpl; now rewrite list_lookup_fmap, Hi |].
  split.
  - intros tok Hne. unfold filterItem.
    destruct (strictEq f (Some "all"%string) || strictEq (category item) f); simpl.
    + now apply contains_classRemove_ne.
    + now apply contains_classAdd_ne.
  - split; [| split; [| split; [apply category_filterItem |]]].
    + unfold filterItem. now destruct (_ || _).
    + unfold filterItem. now destruct (_ || _).
    + simpl. rewrite length_fmap. now repeat split.
Qed.

Lemma filterPhotos_frame_witness :
  exists item',
    photoItems (filterPhotos (Some "portrait"%string) twoPhotos) !! 1%nat = Some item' /\
    contains "photo-item" (classList item') = true /\
    likesText item' = "0 likes"%string.
Proof.
  destruct (filterPhotos_frame (Some "portrait"%string) twoPhotos 1 landscapeItem eq_refl)
    as (item' & Hl & Hc & _ & Ht & _).
  exists item'. split; [exact Hl |]. split; [| exact Ht].
  rewrite Hc; [reflexivity | discriminate].
Defined.

(** The ["all"] filter shows every entry, whatever was hidden before. *)
Theorem filterPhotos_all_visible (g : Page) :
  Forall (fun item => visible item = true)
         (photoItems (filterPhotos (Some "all"%string) g)).
Proof.
  simpl. apply Forall_fmap, Forall_forall. intros item _. simpl.
  now rewrite visible_filterItem.
Qed.

Lemma isActive_updateActiveButton (k : nat) (btns : list FilterBtn) (j : nat) (b : FilterBtn) :
  updateActiveButton k btns !! j = Some b ->
  isActive b = true <-> j = k.
Proof.
  intros Hj. unfold updateActiveButton in Hj.
  destruct (decide (k = j)) as [-> | Hne].
  - rewrite list_lookup_alter_eq, list_lookup_fmap in Hj.
    destruct (btns !! j) as [b0 |]; [| discriminate].
    injection Hj as <-. unfold isActive. simpl.
    rewrite contains_classAdd. tauto.
  - rewrite list_lookup_alter_ne, list_lookup_fmap in Hj by exact Hne.
    destruct (btns !! j) as [b0 |]; [| discriminate].
    injection Hj as <-. unfold isActive. simpl.
    rewrite contains_classRemove. split; [discriminate | congruence].
Qed.

Lemma updateActiveButton_dataFilter (k : nat) (btns : list FilterBtn) :
  dataFilter <$> updateActiveButton k btns = dataFilter <$> btns.
Proof.
  unfold updateActiveButton. apply list_eq. intros j.
  rewrite !list_lookup_fmap. destruct (decide (k = j)) as [-> | Hne].
  - rewrite list_lookup_alter_eq, list_lookup_fmap.
    now destruct (btns !! j).
  - rewrite list_lookup_alter_ne, list_lookup_fmap by exact Hne.
    now destruct (btns !! j).
Qed.

(** After a click on a filter button, that button and no other is marked
    [active], whichever were marked before (none, or several); the buttons
    keep their [data-filter]. *)
Theorem updateActiveButton_exactly_one (k : nat) (btns : list FilterBtn) :
  (k < length btns)%nat ->
  length (updateActiveButton k btns) = length btns /\
  dataFilter <$> updateActiveButton k btns = dataFilter <$> btns /\
  (exists b, updateActiveButton k btns !! k = Some b /\ isActive b = true) /\
  forall j b, updateActiveButton k btns !! j = Some b ->
              (isActive b = true <-> j = k).
Proof.
  intros Hk. split; [| split; [| split]].
  - unfold updateActiveButton. now rewrite length_alter, length_fmap.
  - apply updateActiveButton_dataFilter.
  - destruct (lookup_lt_is_Some_2 (updateActiveButton k btns) k) as [b Hb].
    { unfold updateActiveButton. now rewrite length_alter, length_fmap. }
    exists b. split; [exact Hb |].
    now apply (isActive_updateActiveButton k btns k b Hb).
  - intros j b. apply isActive_updateActiveButton.
Qed.

Definition threeButtons : list FilterBtn :=
  [ mkFilterBtn (Some "all"%string) ["filter-btn"; "active"]%string;
    mkFilterBtn (Some "portrait"%string) ["filter-btn"; "active"]%string;
    mkFilterBtn (Some "landscape"%string) ["filter-btn"%string] ].

Lemma updateActiveButton_exactly_one_witness :
  exists b, updateActiveButton 2 threeButtons !! 0%nat = Some b /\
            isActive b = false.
Proof.
  eexists. split; [reflexivity |].
  apply not_true_is_false. intros Ha.
  assert (2 < length threeButtons)%nat as Hk by (simpl; lia).
  pose proof (proj1 (proj2 (proj2 (proj2
                (updateActiveButton_exactly_one 2 threeButtons Hk)))
                       0%nat _ eq_refl) Ha) as H.
  discriminate H.
Defined.

End FilteringMore.

(** ** Filter buttons and entries together *)

Section FilterClicks.

Import GalleryManager FilterButtons.

(** A sequence of clicks on filter buttons. *)
Definition clicks (ks : list nat) (s : Page * list FilterBtn) : Page * list FilterBtn :=
  foldl (fun s k => clickFilter k s) s ks.

Lemma clickFilter_buttons (k : nat) (s : Page * list FilterBtn) :
  dataFilter <$> (clickFilter k s).2 = dataFilter <$> s.2.
Proof.
  unfold clickFilter. destruct (s.2 !! k) as [btn |] eqn:Hk; [| reflexivity].
  apply updateActiveButton_dataFilter.
Qed.

Lemma clicks_buttons (ks : list nat) :
  forall s, dataFilter <$> (clicks ks s).2 = dataFilter <$> s.2.
Proof.
  induction ks as [| k ks IH]; intros s; [reflexivity |].
  simpl. now rewrite IH, clickFilter_buttons.
Qed.

(** After any clicks, a click on the [k]-th button leaves the page and the
    buttons in step: that button alone is active, its [data-filter] is the
    current filter, and an entry is visible exactly when that filter is
    ["all"] or is the entry's category. *)
Theorem clickFilter_in_step
    (ks : list nat) (k : nat) (s : Page * list FilterBtn) (btn : FilterBtn) :
  s.2 !! k = Some btn ->
  let s' := clickFilter k (clicks ks s) in
  currentFilter s'.1 = dataFilter btn /\
  (forall j b, s'.2 !! j = Some b -> (isActive b = true <-> j = k)) /\
  Forall (fun item => visible item = true <->
                      dataFilter btn = Some "all"%string \/
                      category item = dataFilter btn)
         (photoItems s'.1).
Proof.
  intros Hk. cbv zeta.
  assert (exists btn', (clicks ks s).2 !! k = Some btn' /\
                       dataFilter btn' = dataFilter btn) as (btn' & Hk' & Hd).
  { pose proof (clicks_buttons ks s) as Hb.
    apply (f_equal (fun l => l !! k)) in Hb.
    rewrite !list_lookup_fmap, Hk in Hb.
    destruct ((clicks ks s).2 !! k) as [btn' |]; [| discriminate].
    exists btn'. split; [reflexivity |]. simpl in Hb. congruence. }
  unfold clickFilter. rewrite Hk'. cbn [fst snd]. rewrite Hd.
  split; [reflexivity |]. split.
  - intros j b. apply isActive_updateActiveButton.
  - change (photoItems (filterPhotos (dataFilter btn) (clicks ks s).1))
      with (filterItem (dataFilter btn) <$> photoItems (clicks ks s).1).
    apply Forall_fmap, Forall_forall. intros item _. simpl.
    rewrite visible_filterItem, category_filterItem, orb_true_iff, !strictEq_eq.
    reflexivity.
Qed.

Lemma clickFilter_in_step_witness :
  currentFilter (clickFilter 1 (clicks [2; 0]%nat (twoPhotos, threeButtons))).1
  = Some "portrait"%string.
Proof.
  exact (proj1 (clickFilter_in_step [2; 0]%nat 1 (twoPhotos, threeButtons)
                  (mkFilterBtn (Some "portrait"%string) ["filter-btn"; "active"]%string)
                  eq_refl)).
Defined.

End FilterClicks.

(** ** The image optimizer: shape of the result *)

Section OptimizerMore.

Import Binary64 PerformanceManager.

Local Open Scope Q_scope.

Lemma scaled_gt (d : Z) (r : Q) (M : Z) :
  (0 < d)%Z -> (0 < M < 2 ^ 31)%Z ->
  inject_Z M * (1 - unitRoundoff) <= inject_Z d * r ->
  inject_Z M - 1 < mul (inject_Z d) r.
Proof.
  intros Hd HM Hle.
  pose proof (inject_Z_pos M ltac:(lia)) as HMq.
  assert (inject_Z M < 2147483648) as H3.
  { change 2147483648 with (inject_Z (2 ^ 31)). rewrite <- Zlt_Qlt. lia. }
  assert (0 < inject_Z d * r) as Hp by (unfold unitRoundoff in Hle; lra).
  destruct (round_bounds (inject_Z d * r) Hp) as [H2 _]. fold (mul (inject_Z d) r) in H2.
  unfold unitRoundoff in *. lra.
Qed.

Lemma Qfloor_ge (x : Q) (M : Z) : inject_Z M - 1 < x -> (M - 1 <= Qfloor x)%Z.
Proof.
  intros H. rewrite <- (Qfloor_Z (M - 1)). apply Qfloor_resp_le.
  unfold Z.sub. rewrite inject_Z_plus. change (inject_Z (- (1))) with (- (1)). lra.
Qed.

Lemma ratio_longer (img : Img) (m : Q) :
  (0 < width img)%Z -> (0 < height img)%Z -> 0 < m ->
  ratio img m == div m (inject_Z (Z.max (width img) (height img))).
Proof.
  intros Hw Hh Hm. unfold ratio.
  pose proof (inject_Z_pos _ Hw) as HW. pose proof (inject_Z_pos _ Hh) as HH.
  destruct (Z.le_ge_cases (width img) (height img)) as [Hle | Hge].
  - rewrite Z.max_r by exact Hle. apply Q.min_r.
    apply div_mono; [exact Hm | exact HW | now rewrite <- Zle_Qle].
  - rewrite Z.max_l by lia. apply Q.min_l.
    apply div_mono; [exact Hm | exact HH | rewrite <- Zle_Qle; lia].
Qed.

Lemma mul_mono (a b r : Q) : 0 < a -> a <= b -> 0 < r -> mul a r <= mul b r.
Proof.
  intros Ha Hab Hr. unfold mul. apply round_mono.
  - now apply Qmult_lt_0_compat.
  - apply Qmult_le_compat_r; lra.
Qed.

(** The scaling is as large as the bound allows, up to rounding: the ratio
    is the rounded quotient of [maxWidth] by the longer side, the longer
    side of the canvas is [maxWidth] or [maxWidth - 1], and the canvas is
    oriented as the image (the shorter side of the image is not the longer
    side of the canvas). *)
Theorem optimizeImage_fits_longer_side (img : Img) (M : Z) (quality : option Q) :
  (0 < width img < 2 ^ 32)%Z -> (0 < height img < 2 ^ 32)%Z ->
  (0 < M < 2 ^ 31)%Z ->
  let maxWidth := inject_Z M in
  let b := optimizeImage img (Some maxWidth) quality in
  ratio img maxWidth == div maxWidth (inject_Z (Z.max (width img) (height img))) /\
  (M - 1 <= Z.max (canvasWidth b) (canvasHeight b) <= M)%Z /\
  ((width img <= height img)%Z -> (canvasWidth b <= canvasHeight b)%Z) /\
  ((height img <= width img)%Z -> (canvasHeight b <= canvasWidth b)%Z).
Proof.
  intros Hw Hh HM. cbv zeta.
  pose proof (inject_Z_pos M ltac:(lia)) as HMq.
  pose proof (inject_Z_pos (width img) ltac:(lia)) as HW.
  pose proof (inject_Z_pos (height img) ltac:(lia)) as HH.
  pose proof (ratio_pos img (inject_Z M) ltac:(lia) ltac:(lia) HMq) as Hr.
  pose proof (ratio_longer img (inject_Z M) ltac:(lia) ltac:(lia) HMq) as Hlong.
  assert ((width img <= height img)%Z ->
          (Qfloor (scaledWidth img (inject_Z M))
           <= Qfloor (scaledHeight img (inject_Z M)))%Z) as Hwh.
  { intros Hle. apply Qfloor_resp_le, mul_mono; [exact HW | | exact Hr].
    now rewrite <- Zle_Qle. }
  assert ((height img <= width img)%Z ->
          (Qfloor (scaledHeight img (inject_Z M))
           <= Qfloor (scaledWidth img (inject_Z M)))%Z) as Hhw.
  { intros Hle. apply Qfloor_resp_le, mul_mono; [exact HH | | exact Hr].
    now rewrite <- Zle_Qle. }
  split; [exact Hlong |]. split; [| split; [exact Hwh | exact Hhw]].
  simpl.
  assert (0 <= Qfloor (scaledWidth img (inject_Z M)) <= M)%Z as Hcw.
  { apply Qfloor_range; apply (scaled_lt (width img) _ M); try assumption; try lia;
      apply Q.le_min_l. }
  assert (0 <= Qfloor (scaledHeight img (inject_Z M)) <= M)%Z as Hch.
  { apply Qfloor_range; apply (scaled_lt (height img) _ M); try assumption; try lia;
      apply Q.le_min_r. }
  split; [| lia].
  destruct (Z.le_ge_cases (width img) (height img)) as [Hle | Hge].
  - rewrite Z.max_r by (apply Hwh; exact Hle).
    apply Qfloor_ge, scaled_gt; [lia | lia |].
    rewrite Z.max_r in Hlong by exact Hle. rewrite Hlong.
    apply (div_bounds (inject_Z M) (inject_Z (height img)) HMq HH).
  - rewrite Z.max_l by (apply Hhw; lia).
    apply Qfloor_ge, scaled_gt; [lia | lia |].
    rewrite Z.max_l in Hlong by lia. rewrite Hlong.
    apply (div_bounds (inject_Z M) (inject_Z (width img)) HMq HW).
Qed.

Lemma optimizeImage_fits_longer_side_witness :
  let b := optimizeImage (mkImg 3000 4000) (Some 1200) None in
  (1199 <= Z.max (canvasWidth b) (canvasHeight b) <= 1200)%Z /\
  (canvasWidth b <= canvasHeight b)%Z.
Proof.
  destruct (optimizeImage_fits_longer_side (mkImg 3000 4000) 1200 None)
    as (_ & Hmax & Hwh & _).
  - simpl. lia.
  - simpl. lia.
  - lia.
  - split; [exact Hmax |]. apply Hwh. simpl. lia.
Defined.

End OptimizerMore.

(** ** sanitizeInput *)

Module Sanitizer.

Import JS.

(** The argument of [sanitizeInput]: a string, or a value of another type. *)
Inductive Value : Type :=
  | Str (s : string)
  | NotAString.

Definition isAngle (c : ascii) : bool := (code c =? 60) || (code c =? 62).

(** [.replace(/[<>]/g, '')]. *)
Fixpoint removeAngles (s : string) : string :=
  match s with
  | String c r => if isAngle c then removeAngles r else String c (removeAngles r)
  | EmptyString => EmptyString
  end.

(** Characters equal under the [i] flag: the same letter in either case. *)
Definition lower (c : ascii) : ascii :=
  if (65 <=? code c) && (code c <=? 90)
  then ascii_of_N (Z.to_N (code c + 32)) else c.

Definition eqCI (a b : ascii) : bool := Ascii.eqb (lower a) (lower b).

Fixpoint prefixCI (pat s : string) : bool :=
  match pat with
  | EmptyString => true
  | String p pr =>
      match s with
      | String c r => eqCI p c && prefixCI pr r
      | EmptyString => false
      end
  end.

(** [.replace(re, '')] for a global [re] whose matches are not empty:
    [matchAt s] is the length of the match that starts at the head of [s],
    if there is one; the scan resumes after each match.  [skip] counts the
    characters of the current match still to drop. *)
Fixpoint removeMatches (matchAt : string -> option nat) (skip : nat) (s : string)
    : string :=
  match s with
  | EmptyString => EmptyString
  | String c r =>
      match skip with
      | S k => removeMatches matchAt k r
      | O =>
          match matchAt s with
          | Some (S n) => removeMatches matchAt n r
          | _ => String c (removeMatches matchAt 0 r)
          end
      end
  end.

(** A match of [/javascript:/i] at the head. *)
Definition javascriptAt (s : string) : option nat :=
  if prefixCI "javascript:" s then Some 11%nat else None.

(** [\w]. *)
Definition isWordChar (c : ascii) : bool :=
  let n := code c in
  ((48 <=? n) && (n <=? 57)) || ((65 <=? n) && (n <=? 90))
  || ((97 <=? n) && (n <=? 122)) || (n =? 95).

Fixpoint wordRun (s : string) : nat :=
  match s with
  | String c r => if isWordChar c then S (wordRun r) else O
  | EmptyString => O
  end.

(** A match of [/on\w+=/i] at the head: [on], then the whole run of word
    characters (a shorter run is followed by a word character, never by
    [=]), then [=]. *)
Definition handlerAt (s : string) : option nat :=
  match s with
  | String o r1 =>
      if eqCI "o" o then
        match r1 with
        | String n r =>
            if eqCI "n" n then
              let k := wordRun r in
              match k, String.get k r with
              | S _, Some c => if Ascii.eqb c "=" then Some (2 + k + 1)%nat else None
              | _, _ => None
              end
            else None
        | EmptyString => None
        end
      else None
  | EmptyString => None
  end.

Fixpoint trimEnd (s : string) : string :=
  match s with
  | String c r =>
      match trimEnd r with
      | EmptyString => if isWhiteSpace c then EmptyString else String c EmptyString
      | r' => String c r'
      end
  | EmptyString => EmptyString
  end.

(** [String.prototype.trim]. *)
Definition trim (s : string) : string := trimEnd (trimStart s).

Definition sanitizeInput (input : Value) : string :=
  match input with
  | NotAString => EmptyString
  | Str s =>
      trim (removeMatches handlerAt 0
              (removeMatches javascriptAt 0 (removeAngles s)))
  end.

(** Every character of the string satisfies [P]. *)
Fixpoint allChars (P : ascii -> bool) (s : string) : bool :=
  match s with
  | String c r => P c && allChars P r
  | EmptyString => true
  end.

End Sanitizer.

Example sanitizeInput_tag :
  Sanitizer.sanitizeInput (Sanitizer.Str "  <b onClick=go()>Hi</b> ")
  = "b go()Hi/b"%string.
Proof. reflexivity. Qed.
Example sanitizeInput_protocol :
  Sanitizer.sanitizeInput (Sanitizer.Str "JavaScript:alert(1)") = "alert(1)"%string.
Proof. reflexivity. Qed.
Example sanitizeInput_number :
  Sanitizer.sanitizeInput Sanitizer.NotAString = ""%string.
Proof. reflexivity. Qed.

Section SanitizerProps.

Import JS Sanitizer.

Lemma allChars_removeMatches (P : ascii -> bool) (m : string -> option nat) (s : string) :
  forall skip, allChars P s = true -> allChars P (removeMatches m skip s) = true.
Proof.
  induction s as [| c r IH]; intros skip Hs; [reflexivity |].
  simpl in Hs. apply andb_true_iff in Hs as [Hc Hr]. simpl.
  destruct skip as [| k]; [| now apply IH].
  destruct (m (String c r)) as [[| n] |]; simpl; rewrite ?Hc; now rewrite ?IH.
Qed.

Lemma allChars_trimStart (P : ascii -> bool) (s : string) :
  allChars P s = true -> allChars P (trimStart s) = true.
Proof.
  induction s as [| c r IH]; intros Hs; [reflexivity |]. simpl.
  destruct (isWhiteSpace c); [| exact Hs].
  simpl in Hs. apply andb_true_iff in Hs as [_ Hr]. now apply IH.
Qed.

Lemma allChars_trimEnd (P : ascii -> bool) (s : string) :
  allChars P s = true -> allChars P (trimEnd s) = true.
Proof.
  induction s as [| c r IH]; intros Hs; [reflexivity |].
  simpl in Hs. apply andb_true_iff in Hs as [Hc Hr]. specialize (IH Hr). simpl.
  destruct (trimEnd r) as [| c' r'].
  - destruct (isWhiteSpace c); [reflexivity |]. simpl. now rewrite Hc.
  - simpl in *. now rewrite Hc.
Qed.

Lemma allChars_removeAngles (s : string) :
  allChars (fun c => negb (isAngle c)) (removeAngles s) = true.
Proof.
  induction s as [| c r IH]; [reflexivity |]. simpl.
  destruct (isAngle c) eqn:Hc; [exact IH |]. simpl. now rewrite Hc.
Qed.

Lemma length_removeMatches (m : string -> option nat) (s : string) :
  forall skip, (String.length (removeMatches m skip s) <= String.length s)%nat.
Proof.
  induction s as [| c r IH]; intros skip; [reflexivity |]. simpl.
  destruct skip as [| k]; [| specialize (IH k); lia].
  destruct (m (String c r)) as [[| n] |]; simpl;
    try (specialize (IH 0%nat); lia). specialize (IH n). lia.
Qed.

Lemma length_removeAngles (s : string) :
  (String.length (removeAngles s) <= String.length s)%nat.
Proof.
  induction s as [| c r IH]; [reflexivity |]. simpl.
  destruct (isAngle c); simpl; lia.
Qed.

Lemma length_trimStart (s : string) :
  (String.length (trimStart s) <= String.length s)%nat.
Proof.
  induction s as [| c r IH]; [reflexivity |]. simpl.
  destruct (isWhiteSpace c); simpl; lia.
Qed.

Lemma length_trimEnd (s : string) :
  (String.length (trimEnd s) <= String.length s)%nat.
Proof.
  induction s as [| c r IH]; [reflexivity |]. simpl.
  destruct (trimEnd r) as [| c' r']; [destruct (isWhiteSpace c) |]; simpl in *; lia.
Qed.

(** The head of the string is not white space (or there is no head). *)
Definition headKept (s : string) : bool :=
  match s with
  | String c _ => negb (isWhiteSpace c)
  | EmptyString => true
  end.

Lemma headKept_trimStart (s : string) : headKept (trimStart s) = true.
Proof.
  induction s as [| c r IH]; [reflexivity |]. simpl.
  destruct (isWhiteSpace c) eqn:Hc; [exact IH |]. simpl. now rewrite Hc.
Qed.

Lemma trimStart_headKept (s : string) : headKept s = true -> trimStart s = s.
Proof.
  destruct s as [| c r]; [reflexivity |]. simpl. intros Hc.
  apply negb_true_iff in Hc. now rewrite Hc.
Qed.

Lemma headKept_trimEnd (s : string) : headKept s = true -> headKept (trimEnd s) = true.
Proof.
  destruct s as [| c r]; [reflexivity |]. simpl. intros Hc.
  destruct (trimEnd r) as [| c' r'].
  - apply negb_true_iff in Hc. rewrite Hc. simpl. now rewrite Hc.
  - exact Hc.
Qed.

Lemma trimEnd_idem (s : string) : trimEnd (trimEnd s) = trimEnd s.
Proof.
  induction s as [| c r IH]; [reflexivity |]. simpl.
  destruct (trimEnd r) as [| c' r'] eqn:Hr.
  - destruct (isWhiteSpace c) eqn:Hc; [reflexivity |]. simpl. now rewrite Hc.
  - simpl in IH |- *. now rewrite IH.
Qed.

(** What [sanitizeInput] guarantees of its result, for every argument: no
    angle bracket is left, no white space remains at either end, and the
    result is no longer than a string argument.  Any other argument gives
    the empty string. *)
Theorem sanitizeInput_result (input : Value) :
  allChars (fun c => negb (isAngle c)) (sanitizeInput input) = true /\
  trimStart (sanitizeInput input) = sanitizeInput input /\
  trimEnd (sanitizeInput input) = sanitizeInput input /\
  match input with
  | Str s => (String.length (sanitizeInput input) <= String.length s)%nat
  | NotAString => sanitizeInput input = EmptyString
  end.
Proof.
  destruct input as [s |]; [| now repeat split].
  unfold sanitizeInput, trim. split; [| split; [| split]].
  - apply allChars_trimEnd, allChars_trimStart.
    do 2 apply allChars_removeMatches. apply allChars_removeAngles.
  - apply trimStart_headKept, headKept_trimEnd, headKept_trimStart.
  - apply trimEnd_idem.
  - eapply Nat.le_trans; [apply length_trimEnd |].
    eapply Nat.le_trans; [apply length_trimStart |].
    eapply Nat.le_trans; [apply length_removeMatches |].
    eapply Nat.le_trans; [apply length_removeMatches |].
    apply length_removeAngles.
Qed.

(** Characters none of the three patterns needs: everything but [<], [>],
    [:] and [=]. *)
Definition plainChar (c : ascii) : bool :=
  negb (isAngle c) && negb (Ascii.eqb c ":") && negb (Ascii.eqb c "=").

Lemma removeAngles_plain (s : string) :
  allChars plainChar s = true -> removeAngles s = s.
Proof.
  induction s as [| c r IH]; [reflexivity |]. simpl. intros Hs.
  apply andb_true_iff in Hs as [Hc Hr]. unfold plainChar in Hc.
  apply andb_true_iff in Hc as [Hc _]. apply andb_true_iff in Hc as [Hc _].
  apply negb_true_iff in Hc. now rewrite Hc, IH.
Qed.

Lemma removeMatches_none (m : string -> option nat) (s : string) :
  (forall t, allChars plainChar t = true -> m t = None) ->
  allChars plainChar s = true -> removeMatches m 0 s = s.
Proof.
  intros Hm. induction s as [| c r IH]; [reflexivity |]. intros Hs.
  simpl. rewrite (Hm _ Hs). simpl in Hs. apply andb_true_iff in Hs as [_ Hr].
  now rewrite IH.
Qed.

Lemma eqCI_colon (c : ascii) : eqCI ":" c = true -> c = ":"%char.
Proof.
  unfold eqCI. change (lower ":") with ":"%char. intros H.
  apply Ascii.eqb_eq in H. unfold lower in H.
  destruct ((65 <=? code c) && (code c <=? 90)) eqn:Hu; [| congruence].
  exfalso. apply andb_true_iff in Hu as [H1 H2].
  apply Z.leb_le in H1, H2.
  assert (code (ascii_of_N (Z.to_N (code c + 32))) = code c + 32) as Hcode.
  { unfold code at 1. rewrite N_ascii_embedding; [lia |].
    apply N2Z.inj_lt. rewrite Z2N.id by lia. change (Z.of_N 256) with 256. lia. }
  rewrite <- H in Hcode. change (code ":") with 58 in Hcode. lia.
Qed.

Lemma prefixCI_colon (pat s : string) :
  prefixCI (pat +:+ ":") s = true -> allChars plainChar s = false.
Proof.
  revert s. induction pat as [| p pr IH]; intros s H.
  - destruct s as [| c r]; [discriminate |]. simpl in H.
    apply andb_true_iff in H as [Hc _]. apply eqCI_colon in Hc as ->. reflexivity.
  - destruct s as [| c r]; [discriminate |].
    change ((String p pr) +:+ ":") with (String p (pr +:+ ":")) in H.
    simpl in H. apply andb_true_iff in H as [_ Hr].
    simpl. rewrite (IH _ Hr). apply andb_false_r.
Qed.

Lemma javascriptAt_plain (t : string) :
  allChars plainChar t = true -> javascriptAt t = None.
Proof.
  intros Ht. unfold javascriptAt.
  destruct (prefixCI "javascript:" t) eqn:Hp; [| reflexivity].
  change "javascript:"%string with ("javascript" +:+ ":") in Hp.
  apply prefixCI_colon in Hp. congruence.
Qed.

Lemma get_allChars (P : ascii -> bool) (s : string) :
  forall k c, String.get k s = Some c -> allChars P s = true -> P c = true.
Proof.
  induction s as [| a r IH]; intros k c Hg Hs; [discriminate |].
  simpl in Hs. apply andb_true_iff in Hs as [Ha Hr].
  destruct k as [| k]; simpl in Hg; [congruence | eauto].
Qed.

Lemma handlerAt_plain (t : string) :
  allChars plainChar t = true -> handlerAt t = None.
Proof.
  intros Ht. unfold handlerAt.
  destruct t as [| o [| n r]]; try reflexivity; [now destruct (eqCI "o" o) |].
  destruct (eqCI "o" o); [| reflexivity]. destruct (eqCI "n" n); [| reflexivity].
  cbv zeta. destruct (wordRun r) as [| k] eqn:Hk; [reflexivity |].
  destruct (String.get (S k) r) as [c |] eqn:Hg; [| reflexivity].
  destruct (Ascii.eqb c "=") eqn:Hc; [| reflexivity]. exfalso.
  simpl in Ht. apply andb_true_iff in Ht as [_ Ht].
  apply andb_true_iff in Ht as [_ Ht].
  pose proof (get_allChars plainChar r _ _ Hg Ht) as Hp.
  unfold plainChar in Hp. rewrite Hc in Hp. simpl in Hp.
  now rewrite andb_false_r in Hp.
Qed.

(** Text without [<], [>], [:] and [=] and without white space at its ends
    comes back unchanged. *)
Theorem sanitizeInput_plain (s : string) :
  allChars plainChar s = true ->
  trimStart s = s -> trimEnd s = s ->
  sanitizeInput (Str s) = s.
Proof.
  intros Hs H1 H2. unfold sanitizeInput, trim.
  rewrite removeAngles_plain by exact Hs.
  rewrite (removeMatches_none javascriptAt s javascriptAt_plain Hs).
  rewrite (removeMatches_none handlerAt s handlerAt_plain Hs).
  now rewrite H1, H2.
Qed.

Lemma sanitizeInput_plain_witness :
  sanitizeInput (Str "Golden hour, on the pier") = "Golden hour, on the pier"%string.
Proof.
  apply sanitizeInput_plain; reflexivity.
Defined.

Lemma trimEnd_cons (c : ascii) (r : string) :
  isWhiteSpace c = false -> trimEnd (String c r) = String c (trimEnd r).
Proof. intros Hc. simpl. destruct (trimEnd r); [now rewrite Hc | reflexivity]. Qed.

Lemma removeAngles_keep (c : ascii) (r : string) :
  isAngle c = false -> removeAngles (String c r) = String c (removeAngles r).
Proof. intros Hc. simpl. now rewrite Hc. Qed.

Lemma removeMatches_skip (m : string -> option nat) (k : nat) (c : ascii) (r : string) :
  removeMatches m (S k) (String c r) = removeMatches m k r.
Proof. reflexivity. Qed.

Lemma removeMatches_keep (m : string -> option nat) (c : ascii) (r : string) :
  m (String c r) = None ->
  removeMatches m 0 (String c r) = String c (removeMatches m 0 r).
Proof. intros Hm. simpl. now rewrite Hm. Qed.

Lemma removeMatches_hit (m : string -> option nat) (n : nat) (c : ascii) (r : string) :
  m (String c r) = Some (S n) ->
  removeMatches m 0 (String c r) = removeMatches m n r.
Proof. intros Hm. simpl. now rewrite Hm. Qed.

(** The replacements are single passes: removing [javascript:] from the
    middle of [javajavascript:script:] joins what is around it, and the
    result starts with the very prefix that was to be removed. *)
Theorem sanitizeInput_rejoins (t : string) :
  allChars plainChar t = true -> trimEnd t = t ->
  sanitizeInput (Str ("javajavascript:script:" +:+ t)) = "javascript:" +:+ t.
Proof.
  intros Ht He. unfold sanitizeInput, trim. lazy [String.append].
  rewrite !removeAngles_keep by reflexivity.
  rewrite (removeAngles_plain t Ht).
  rewrite !removeMatches_keep by reflexivity.
  rewrite (removeMatches_hit javascriptAt 10) by reflexivity.
  rewrite !removeMatches_skip.
  rewrite !removeMatches_keep by reflexivity.
  rewrite (removeMatches_none javascriptAt t javascriptAt_plain Ht).
  rewrite ?removeMatches_keep by reflexivity.
  rewrite (removeMatches_none handlerAt t handlerAt_plain Ht).
  rewrite trimStart_headKept by reflexivity.
  rewrite !trimEnd_cons by reflexivity. now rewrite He.
Qed.

Lemma sanitizeInput_rejoins_witness :
  sanitizeInput (Str "javajavascript:script:alert(1)") = "javascript:alert(1)"%string.
Proof.
  apply (sanitizeInput_rejoins "alert(1)"); reflexivity.
Defined.

End SanitizerProps.

(** ** NavigationManager: the active link *)

Module NavigationManager.

Import GalleryManager.

(** A link of [this.navLinks]. *)
Record NavLink : Type := mkNavLink {
  href : string;
  navClasses : list string;       (* link.classList *)
  ariaCurrent : option string     (* the aria-current attribute *)
}.

(** [updateActiveLink(activeLink)], the link being the [k]-th of
    [this.navLinks]. *)
Definition updateActiveLink (k : nat) (links : list NavLink) : list NavLink :=
  alter (fun l => {| href := href l;
                     navClasses := classAdd "active" (navClasses l);
                     ariaCurrent := Some "page"%string |}) k
    ((fun l => {| href := href l;
                  navClasses := classRemove "active" (navClasses l);
                  ariaCurrent := None |}) <$> links).

(** [document.querySelector(`.main-nav a[href="#${sectionId}"]`)]: the
    first link with that [href], as its place in [this.navLinks]. *)
Definition correspondingLink (sectionId : string) (links : list NavLink) : option nat :=
  fst <$> list_find (fun l => href l = "#" +:+ sectionId) links.

(** The callback of the scroll observer on one entry: [entry.target.id] and
    [entry.isIntersecting]. *)
Definition onEntry (links : list NavLink) (entry : string * bool) : list NavLink :=
  if entry.2 then
    match correspondingLink entry.1 links with
    | Some k => updateActiveLink k links
    | None => links
    end
  else links.

Definition onIntersect (entries : list (string * bool)) (links : list NavLink)
    : list NavLink :=
  foldl onEntry links entries.

Definition isActiveLink (l : NavLink) : bool := contains "active" (navClasses l).

End NavigationManager.

Section Navigation.

Import GalleryManager NavigationManager.

Lemma updateActiveLink_href (k : nat) (links : list NavLink) :
  href <$> updateActiveLink k links = href <$> links.
Proof.
  unfold updateActiveLink. apply list_eq. intros j.
  rewrite !list_lookup_fmap. destruct (decide (k = j)) as [-> | Hne].
  - rewrite list_lookup_alter_eq, list_lookup_fmap. now destruct (links !! j).
  - rewrite list_lookup_alter_ne, list_lookup_fmap by exact Hne.
    now destruct (links !! j).
Qed.

Lemma updateActiveLink_only (k : nat) (links : list NavLink) (j : nat) (l : NavLink) :
  updateActiveLink k links !! j = Some l ->
  (isActiveLink l = true <-> j = k) /\
  (ariaCurrent l = Some "page"%string <-> j = k).
Proof.
  intros Hj. unfold updateActiveLink in Hj.
  destruct (decide (k = j)) as [-> | Hne].
  - rewrite list_lookup_alter_eq, list_lookup_fmap in Hj.
    destruct (links !! j) as [l0 |]; [| discriminate].
    injection Hj as <-. unfold isActiveLink. simpl.
    rewrite contains_classAdd. tauto.
  - rewrite list_lookup_alter_ne, list_lookup_fmap in Hj by exact Hne.
    destruct (links !! j) as [l0 |]; [| discriminate].
    injection Hj as <-. unfold isActiveLink. simpl.
    rewrite contains_classRemove.
    split; (split; [discriminate | congruence]).
Qed.

Lemma correspondingLink_href (sectionId : string) (l1 l2 : list NavLink) :
  href <$> l1 = href <$> l2 ->
  correspondingLink sectionId l1 = correspondingLink sectionId l2.
Proof.
  intros Heq. unfold correspondingLink.
  pose proof (list_find_fmap href (fun h => h = "#" +:+ sectionId) l1) as H1.
  pose proof (list_find_fmap href (fun h => h = "#" +:+ sectionId) l2) as H2.
  rewrite Heq in H1. rewrite H1 in H2.
  apply (f_equal (fmap fst)) in H2.
  rewrite <- !option_fmap_compose in H2.
  destruct (list_find _ l1) as [[i1 x1] |], (list_find _ l2) as [[i2 x2] |];
    simpl in *; congruence.
Qed.

(** The link an entry activates, if any. *)
Definition activates (links : list NavLink) (entry : string * bool) : option nat :=
  if entry.2 then correspondingLink entry.1 links else None.

Lemma onIntersect_href (entries : list (string * bool)) :
  forall links, href <$> onIntersect entries links = href <$> links.
Proof.
  induction entries as [| e es IH]; intros links; [reflexivity |].
  simpl. rewrite IH. unfold onEntry. destruct e.2; [| reflexivity].
  destruct (correspondingLink e.1 links); [apply updateActiveLink_href | reflexivity].
Qed.

(** After the scroll observer has reported, the last intersecting section
    that has a link decides: its link alone is [active] and alone carries
    [aria-current="page"].  If no reported section is intersecting and has a
    link, the links are untouched. *)
Theorem onIntersect_last_wins (entries : list (string * bool)) (links : list NavLink) :
  href <$> onIntersect entries links = href <$> links /\
  match last (omap (activates links) entries) with
  | Some k =>
      forall j l, onIntersect entries links !! j = Some l ->
        (isActiveLink l = true <-> j = k) /\
        (ariaCurrent l = Some "page"%string <-> j = k)
  | None => onIntersect entries links = links
  end.
Proof.
  split; [apply onIntersect_href |].
  induction entries as [| e es IH] using rev_ind; [reflexivity |].
  unfold onIntersect in *. rewrite foldl_snoc, omap_app.
  pose proof (onIntersect_href es links) as Hh. unfold onIntersect in Hh.
  set (r := foldl onEntry links es) in *.
  assert (onEntry r e = match activates links e with
                        | Some k => updateActiveLink k r
                        | None => r
                        end) as ->.
  { unfold onEntry, activates. destruct e.2; [| reflexivity].
    now rewrite (correspondingLink_href e.1 r links Hh). }
  cbn [omap list_omap]. destruct (activates links e) as [k |].
  - rewrite last_snoc. intros j l. apply updateActiveLink_only.
  - rewrite app_nil_r. exact IH.
Qed.

Definition navOf (h : string) : NavLink :=
  {| href := h; navClasses := ["nav-link"%string]; ariaCurrent := None |}.

Lemma onIntersect_last_wins_witness :
  exists l,
    onIntersect [("gallery"%string, true); ("hero"%string, true);
                 ("about"%string, true); ("blog"%string, false)]
      [navOf "#gallery"; navOf "#about"; navOf "#contact"] !! 0%nat = Some l /\
    isActiveLink l = false.
Proof.
  pose proof (proj2 (onIntersect_last_wins
                       [("gallery"%string, true); ("hero"%string, true);
                        ("about"%string, true); ("blog"%string, false)]
                       [navOf "#gallery"; navOf "#about"; navOf "#contact"])) as H.
  change (last _) with (Some 1%nat) in H.
  eexists. split; [reflexivity |].
  apply not_true_is_false. intros Ha.
  pose proof (proj1 (proj1 (H 0%nat _ eq_refl)) Ha) as Hk. discriminate Hk.
Defined.

End Navigation.

(** ** TypingAnimation *)

Module TypingAnimation.

Record State : Type := mkState {
  text : string;          (* the subtitle's text, captured by init *)
  textContent : string;   (* this.subtitle.textContent *)
  borderRight : string;   (* this.subtitle.style.borderRight *)
  i : nat;
  pending : bool          (* a timer for typeWriter is set *)
}.

Definition cursor : string := "2px solid var(--accent-primary-current)".

(** [init()] on a page that has the subtitle, [content] being its text. *)
Definition init (content : string) : State :=
  {| text := content; textContent := ""; borderRight := cursor; i := 0;
     pending := true |}.

(** [text.charAt(i)]. *)
Definition charAt (k : nat) (s : string) : string :=
  match String.get k s with
  | Some c => String c EmptyString
  | None => EmptyString
  end.

Definition typeWriter (s : State) : State :=
  if (i s <? String.length (text s))%nat then
    {| text := text s; textContent := textContent s +:+ charAt (i s) (text s);
       borderRight := borderRight s; i := S (i s); pending := true |}
  else
    {| text := text s; textContent := textContent s; borderRight := "none";
       i := i s; pending := false |}.

(** The pending timer fires. *)
Definition tick (s : State) : State :=
  if pending s then typeWriter s else s.

End TypingAnimation.

Section Typing.

Import TypingAnimation.

Lemma substring_all (s : string) (n : nat) :
  (String.length s <= n)%nat -> substring 0 n s = s.
Proof.
  revert n. induction s as [| c r IH]; intros n Hn; [now destruct n |].
  destruct n as [| n]; simpl in *; [lia |]. rewrite IH by lia. reflexivity.
Qed.

Lemma substring_next (s : string) (n : nat) :
  (n < String.length s)%nat ->
  substring 0 (S n) s = substring 0 n s +:+ charAt n s.
Proof.
  revert n. induction s as [| c r IH]; intros n Hn; [simpl in Hn; lia |].
  destruct n as [| n].
  - destruct r; reflexivity.
  - simpl in Hn. change (substring 0 (S (S n)) (String c r))
      with (String c (substring 0 (S n) r)).
    rewrite IH by lia. reflexivity.
Qed.

(** After [n] timer ticks the subtitle shows the first [n] characters of
    its text; the tick after the last character removes the cursor and sets
    no further timer, so the text is complete, and stays, from tick
    [length + 1] on. *)
Theorem typing_progress (content : string) (n : nat) :
  let s := Nat.iter n tick (init content) in
  textContent s = substring 0 n content /\
  pending s = (n <=? String.length content)%nat /\
  borderRight s = (if (n <=? String.length content)%nat then cursor else "none"%string) /\
  ((String.length content <= n)%nat -> textContent s = content).
Proof.
  cbv zeta.
  assert (textContent (Nat.iter n tick (init content)) = substring 0 n content /\
          text (Nat.iter n tick (init content)) = content /\
          i (Nat.iter n tick (init content)) = Nat.min n (String.length content) /\
          pending (Nat.iter n tick (init content)) = (n <=? String.length content)%nat /\
          borderRight (Nat.iter n tick (init content))
          = (if (n <=? String.length content)%nat then cursor else "none"%string))
    as (Ht & _ & _ & Hp & Hb).
  { induction n as [| n IH].
    - simpl. split; [now destruct content |]. now repeat split.
    - destruct IH as (Ht & Hx & Hi & Hp & Hb).
      change (Nat.iter (S n) tick (init content))
        with (tick (Nat.iter n tick (init content))).
      set (s := Nat.iter n tick (init content)) in *.
      unfold tick. rewrite Hp.
      destruct (Nat.leb_spec n (String.length content)) as [Hle | Hgt].
      + unfold typeWriter. rewrite Hi, Hx, Nat.min_l by exact Hle.
        destruct (Nat.ltb_spec n (String.length content)) as [Hlt | Hge];
          cbn [textContent text i pending borderRight].
        * rewrite Ht, <- substring_next by exact Hlt.
          rewrite Nat.min_l by lia.
          destruct (Nat.leb_spec (S n) (String.length content)); [| lia].
          rewrite Hb.
          destruct (Nat.leb_spec n (String.length content)); [| lia].
          now repeat split.
        * rewrite Ht, !substring_all by lia. rewrite Nat.min_r by lia.
          destruct (Nat.leb_spec (S n) (String.length content)); [lia |].
          repeat split; try reflexivity. lia.
      + rewrite Ht, Hx, Hi, Hb, !substring_all by lia.
        rewrite !Nat.min_r by lia.
        destruct (Nat.leb_spec (S n) (String.length content)); [lia |].
        destruct (Nat.leb_spec n (String.length content)); [lia |].
        now repeat split. }
  split; [exact Ht |]. split; [exact Hp |]. split; [exact Hb |].
  intros Hn. rewrite Ht. now apply substring_all.
Qed.

Lemma typing_progress_witness :
  textContent (Nat.iter 24 tick (init "Through the lens")) = "Through the lens"%string.
Proof.
  apply (typing_progress "Through the lens" 24). simpl. lia.
Defined.

End Typing.

(** ** Scroll reveals and lazy images *)

Module Observers.

Import GalleryManager.

(** An element observed by [setupScrollAnimations]. *)
Record Animated : Type := mkAnimated {
  opacity : string;
  transform : string;
  transition : string
}.

(** What [setupScrollAnimations] writes on every element it observes. *)
Definition conceal (el : Animated) : Animated :=
  {| opacity := "0"; transform := "translateY(20px)";
     transition := "opacity 0.6s ease, transform 0.6s ease" |}.

(** What its observer writes on an intersecting element. *)
Definition reveal (el : Animated) : Animated :=
  {| opacity := "1"; transform := "translateY(0)"; transition := transition el |}.

(** An observer entry: the place of [entry.target] among the observed
    elements, and [entry.isIntersecting]. *)
Definition Entry : Type := nat * bool.

(** The callback of an observer whose handler writes [f] on the target of
    each intersecting entry. *)
Definition onEntries {A : Type} (f : A -> A) (entries : list Entry) (els : list A)
    : list A :=
  foldl (fun els (e : Entry) => if e.2 then alter f e.1 els else els) els entries.

Definition setupScrollAnimations (els : list Animated) : list Animated :=
  conceal <$> els.

Definition scrollCallback (entries : list Entry) (els : list Animated) : list Animated :=
  onEntries reveal entries els.

(** An [img[data-src]] element. *)
Record LazyImg : Type := mkLazyImg {
  src : option string;        (* the src attribute, if set *)
  dataSrc : string;           (* img.dataset.src *)
  imgClasses : list string;   (* img.classList *)
  observed : bool             (* the image observer still watches it *)
}.

(** The handler of [setupLazyLoading] on an intersecting image. *)
Definition load (img : LazyImg) : LazyImg :=
  {| src := Some (dataSrc img); dataSrc := dataSrc img;
     imgClasses := classRemove "lazy" (imgClasses img); observed := false |}.

Definition lazyCallback (entries : list Entry) (imgs : list LazyImg) : list LazyImg :=
  onEntries load entries imgs.

End Observers.

Section ObserverProps.

Import GalleryManager Observers.

(** For a handler that writes the same thing when run again, the outcome of
    any sequence of reports is decided per element by whether one of them
    saw it intersecting. *)
Lemma onEntries_lookup {A : Type} (f : A -> A) (entries : list Entry)
    (els : list A) (j : nat) :
  (forall x, f (f x) = f x) ->
  onEntries f entries els !! j
  = if decide ((j, true) ∈ entries) then f <$> els !! j else els !! j.
Proof.
  intros Hf. induction entries as [| [k b] es IH] using rev_ind.
  - destruct (decide ((j, true) ∈ [])) as [Hin | _]; [| reflexivity].
    now apply elem_of_nil in Hin.
  - unfold onEntries in *. rewrite foldl_snoc. cbn [fst snd].
    set (r := foldl _ els es) in *.
    assert ((j, true) ∈ es ++ [(k, b)] <-> (j, true) ∈ es \/ (j = k /\ b = true))
      as Hiff.
    { rewrite elem_of_app, list_elem_of_singleton. split.
      - intros [H | H]; [now left | right]. injection H as -> <-. now split.
      - intros [H | [-> ->]]; [now left | now right]. }
    destruct (decide ((j, true) ∈ es)) as [Hin | Hn].
    + rewrite (decide_True (P := (j, true) ∈ es ++ [(k, b)]))
        by (apply Hiff; now left).
      destruct b; [| exact IH].
      destruct (decide (k = j)) as [-> | Hne].
      * rewrite list_lookup_alter_eq, IH.
        destruct (els !! j); simpl; [now rewrite Hf | reflexivity].
      * now rewrite list_lookup_alter_ne.
    + destruct b.
      * destruct (decide (k = j)) as [-> | Hne].
        -- rewrite (decide_True (P := (j, true) ∈ es ++ [(j, true)]))
             by (apply Hiff; now right).
           now rewrite list_lookup_alter_eq, IH.
        -- rewrite (decide_False (P := (j, true) ∈ es ++ [(k, true)])).
           ++ now rewrite list_lookup_alter_ne.
           ++ intros H. apply Hiff in H as [H | [H _]]; [contradiction | congruence].
      * rewrite (decide_False (P := (j, true) ∈ es ++ [(k, false)])); [exact IH |].
        intros H. apply Hiff in H as [H | [_ H]]; [contradiction | discriminate].
Qed.

(** Scroll reveals are one-way.  After the set-up every observed element is
    concealed; after any reports of the observer an element is revealed
    (opacity 1, no offset) exactly when some report saw it intersecting,
    and otherwise still concealed: leaving the viewport never hides it
    again.  The transition written by the set-up stays. *)
Theorem scroll_reveal_one_way
    (els : list Animated) (entries : list Entry) (j : nat) (el : Animated) :
  els !! j = Some el ->
  exists el',
    scrollCallback entries (setupScrollAnimations els) !! j = Some el' /\
    transition el' = "opacity 0.6s ease, transform 0.6s ease"%string /\
    (opacity el', transform el')
    = (if decide ((j, true) ∈ entries)
       then ("1", "translateY(0)") else ("0", "translateY(20px)"))%string.
Proof.
  intros Hj. unfold scrollCallback, setupScrollAnimations.
  rewrite onEntries_lookup by reflexivity.
  rewrite list_lookup_fmap, Hj.
  destruct (decide ((j, true) ∈ entries)); eexists; simpl;
    (split; [reflexivity |]); split; reflexivity.
Qed.

Lemma scroll_reveal_one_way_witness :
  exists el',
    scrollCallback [(0%nat, true); (1%nat, false); (0%nat, false)]
      (setupScrollAnimations [mkAnimated "" "" ""; mkAnimated "" "" ""]) !! 0%nat
    = Some el' /\
    opacity el' = "1"%string.
Proof.
  destruct (scroll_reveal_one_way [mkAnimated "" "" ""; mkAnimated "" "" ""]
              [(0%nat, true); (1%nat, false); (0%nat, false)] 0 _ eq_refl)
    as (el' & Hl & _ & Ho).
  exists el'. split; [exact Hl |].
  destruct (decide _) as [_ | Hn] in Ho; [now injection Ho |].
  exfalso. apply Hn. apply elem_of_cons. now left.
Defined.

Lemma load_idem (img : LazyImg) : load (load img) = load img.
Proof. unfold load. simpl. now rewrite classRemove_idem. Qed.

(** Lazy images load once and for good.  After any reports of the image
    observer, an image that some report saw intersecting has its [data-src]
    as [src], has lost the [lazy] class and is no longer observed, however
    often it was reported; any other image is untouched.  [data-src] itself
    never changes. *)
Theorem lazy_load_once
    (imgs : list LazyImg) (entries : list Entry) (j : nat) (img : LazyImg) :
  imgs !! j = Some img ->
  exists img',
    lazyCallback entries imgs !! j = Some img' /\
    dataSrc img' = dataSrc img /\
    if decide ((j, true) ∈ entries)
    then src img' = Some (dataSrc img) /\
         contains "lazy" (imgClasses img') = false /\
         observed img' = false
    else img' = img.
Proof.
  intros Hj. unfold lazyCallback. rewrite (onEntries_lookup load) by apply load_idem.
  rewrite Hj. destruct (decide ((j, true) ∈ entries)); eexists; simpl;
    (split; [reflexivity |]); split; try reflexivity.
  split; [reflexivity |]. split; [apply contains_classRemove | reflexivity].
Qed.

Lemma lazy_load_once_witness :
  exists img',
    lazyCallback [(1%nat, true); (1%nat, true)]
      [mkLazyImg None "a.jpg" ["lazy"%string] true;
       mkLazyImg None "b.jpg" ["lazy"%string] true] !! 0%nat = Some img' /\
    src img' = None.
Proof.
  destruct (lazy_load_once
              [mkLazyImg None "a.jpg" ["lazy"%string] true;
               mkLazyImg None "b.jpg" ["lazy"%string] true]
              [(1%nat, true); (1%nat, true)] 0 _ eq_refl) as (img' & Hl & _ & Hc).
  exists img'. split; [exact Hl |].
  destruct (decide _) as [Hin | _] in Hc; [| now rewrite Hc].
  exfalso. repeat (apply elem_of_cons in Hin as [Hin | Hin]; [discriminate |]).
  now apply elem_of_nil in Hin.
Defined.

End ObserverProps.
